(** * virtualized-table-app: windowing engine, sort/filter pipeline and
      paginated data source

    A shallow embedding of the hooks of the application
    ([useVirtualizedList], [useDataFetching], [useDebounce]) and of the
    table component (its derivations [sortedData] and
    [filteredAndSortedData], its handlers [handleSort] and [handleScroll],
    its [renderedRows]), followed by the properties stated about them.

    Conventions of the embedding.
    - A JavaScript number that the code only uses as an integer (an array
      length, an index, [id], [numericValue], [loadedCount]) is a [Z].
    - A JavaScript number that is a pixel measure ([scrollTop], the row and
      list heights) is an exact rational [Q], with [Qfloor] and [Qceiling]
      for [Math.floor] and [Math.ceil], where the arithmetic is taken as
      exact; the module [Double] is the windowing hook on IEEE 754 doubles,
      with the rounding of its sum and of its two quotients.
    - A JavaScript string is a [string]; the strings the code builds are
      ASCII, and [<] on strings is the lexicographic order on character
      codes.
    - An array is a [list]; [Array.prototype.slice] is written out with its
      clamping of relative indices.
    - React state is explicit: a hook is a function of the state it reads,
      and an asynchronous callback is split at its [await].  A callback
      holds the state of the render that built it: [fetchMoreData_call] and
      [checkLoadMore] are the callbacks of a render of the current state,
      [fetchMoreData] and [checkLoadMore_of] those of any render. *)

From Stdlib Require Import ZArith QArith Qround Lqa Lia Ascii DecimalString.
From Stdlib Require DecimalPos DecimalZ PrimFloat SpecFloat FloatOps Uint63.
From stdpp Require Import prelude strings sorting.

Local Open Scope Z_scope.

(** ** JavaScript primitives used by the code *)

(** [ToIntegerOrInfinity]-free part of [Array.prototype.slice]: a relative
    index [k] is counted from the end when negative and clamped to
    [0 .. len]. *)
Definition relativeIndex (len k : Z) : Z :=
  if k <? 0 then Z.max (len + k) 0 else Z.min k len.

(** [l.slice(from, to)] for integral [from] and [to]. *)
Definition slice {A} (l : list A) (from to : Z) : list A :=
  let len := Z.of_nat (length l) in
  let k := relativeIndex len from in
  let final := relativeIndex len to in
  take (Z.to_nat (final - k)) (drop (Z.to_nat k) l).

(** ** Configuration ([tableUtils]) *)

Definition TOTAL_ROWS : Z := 10000.
Definition INITIAL_LOAD_COUNT : Z := 500.
Definition CHUNK_SIZE : Z := 500.
Definition RowHeight : Q := 60.
Definition LIST_HEIGHT : Q := 700.

(** ** The windowing hook [useVirtualizedList] *)

Section Windowing.
Context {A : Type}.
Variables (items : list A) (listHeight rowHeight : Q) (overscanCount : Z).
(** the hook's state cell *)
Variable scrollOffset : Q.

Definition totalHeight : Q := inject_Z (Z.of_nat (length items)) * rowHeight.

Definition startIndex : Z :=
  Z.max 0 (Qfloor (scrollOffset / rowHeight) - overscanCount).

Definition endIndex : Z :=
  Z.min (Z.of_nat (length items))
        (Qceiling ((scrollOffset + listHeight) / rowHeight) + overscanCount).

Definition visibleItems : list A := slice items startIndex endIndex.

(** the argument of [translateY] in [listStyle] *)
Definition listTranslateY : Q := inject_Z startIndex * rowHeight.

(** the [height] of [contentStyle] *)
Definition contentHeight : Q := totalHeight.
End Windowing.

(** What the hook hands to the component. *)
Record VirtualizedList (A : Type) := mkVirtualizedList {
  vl_visibleItems : list A;
  vl_startIndex : Z;
  vl_containerHeight : Q;
  vl_contentHeight : Q;
  vl_translateY : Q;
  vl_totalHeight : Q;
}.
Arguments mkVirtualizedList {A}.
Arguments vl_visibleItems {A}.
Arguments vl_startIndex {A}.
Arguments vl_containerHeight {A}.
Arguments vl_contentHeight {A}.
Arguments vl_translateY {A}.
Arguments vl_totalHeight {A}.

Definition useVirtualizedList {A} (items : list A) (listHeight rowHeight : Q)
    (overscanCount : Z) (scrollOffset : Q) : VirtualizedList A :=
  {| vl_visibleItems := visibleItems items listHeight rowHeight overscanCount scrollOffset;
     vl_startIndex := startIndex rowHeight overscanCount scrollOffset;
     vl_containerHeight := LIST_HEIGHT;
     vl_contentHeight := contentHeight items rowHeight;
     vl_translateY := listTranslateY rowHeight overscanCount scrollOffset;
     vl_totalHeight := totalHeight items rowHeight |}.

(** [overscanCount = 5] when the caller leaves it out. *)
Definition defaultOverscanCount : Z := 5.

(** ** Strings *)

(** [n.toString()] for an integral number: decimal digits, with a leading
    minus sign for a negative one. *)
Definition toString (n : Z) : string := NilZero.string_of_int (Z.to_int n).

Definition toLowerCaseChar (c : ascii) : ascii :=
  let n := N_of_ascii c in
  if ((65 <=? n) && (n <=? 90))%N then ascii_of_N (n + 32) else c.

(** [s.toLowerCase()] on ASCII text: the letters A to Z are mapped, every
    other character is kept. *)
Fixpoint toLowerCase (s : string) : string :=
  match s with
  | EmptyString => EmptyString
  | String c s' => String (toLowerCaseChar c) (toLowerCase s')
  end.

(** [hay.includes(needle)]: [needle] occurs in [hay] at some position. *)
Fixpoint includes (hay needle : string) : bool :=
  String.prefix needle hay ||
  match hay with
  | EmptyString => false
  | String _ hay' => includes hay' needle
  end.

(** ** Records *)

Module Item.
Record t := mk {
  id : Z;
  name : string;
  numericValue : Z;
  status : string;
}.
End Item.

Section DataSource.
(** [randomValue i] is the value of
    [Math.floor(Math.random() * 100000)] drawn for the record [i]. *)
Variable randomValue : Z → Z.

(** The object pushed by one turn of the loop of [generateData]. *)
Definition generateItem (i : Z) : Item.t :=
  {| Item.id := i;
     Item.name := "Item Name " +:+ toString i;
     Item.numericValue := randomValue i;
     Item.status :=
       if Z.rem i 5 =? 0 then "Active"
       else if Z.rem i 3 =? 0 then "Pending" else "Completed" |}.

(** [for (let i = 1; i <= count; i++) data.push(...)] *)
Definition generateData (count : Z) : list Item.t :=
  generateItem <$> seqZ 1 count.

Definition initialFullData : list Item.t := generateData TOTAL_ROWS.

(** ** The paginated data source [useDataFetching]

    The three state cells and the ref of the hook, and the number of
    calls of [fetchMoreData] that are suspended at their [await]. *)
Record DataSource := mkDataSource {
  data : list Item.t;
  isLoading : bool;
  hasMore : bool;
  loadedCount : Z;
  suspended : nat;
}.

Definition useDataFetching : DataSource :=
  {| data := slice initialFullData 0 INITIAL_LOAD_COUNT;
     isLoading := false;
     hasMore := INITIAL_LOAD_COUNT <? TOTAL_ROWS;
     loadedCount := INITIAL_LOAD_COUNT;
     suspended := 0 |}.

(** [fetchMoreData] up to its [await]: the guard and [setIsLoading(true)],
    for the callback of a render that has seen the state [s]; the guard of
    the callback of an earlier render reads what that render saw, see
    [fetchMoreData]. *)
Definition fetchMoreData_call (s : DataSource) : DataSource :=
  if isLoading s || negb (hasMore s) then s
  else {| data := data s;
          isLoading := true;
          hasMore := hasMore s;
          loadedCount := loadedCount s;
          suspended := S (suspended s) |}.

(** [fetchMoreData] after its [await], when the timer has fired. *)
Definition fetchMoreData_resume (s : DataSource) : DataSource :=
  let nextData :=
    slice initialFullData (loadedCount s) (loadedCount s + CHUNK_SIZE) in
  if 0 <? Z.of_nat (length nextData) then
    let loadedCount' := loadedCount s + Z.of_nat (length nextData) in
    {| data := data s ++ nextData;
       isLoading := false;
       hasMore := loadedCount' <? TOTAL_ROWS;
       loadedCount := loadedCount';
       suspended := pred (suspended s) |}
  else
    {| data := data s;
       isLoading := false;
       hasMore := false;
       loadedCount := loadedCount s;
       suspended := pred (suspended s) |}.

(** What can happen to the data source: the component asks for more, or
    the timer of a suspended call fires. *)
Inductive Event := LoadRequest | TimerFired.

Definition step (s : DataSource) (e : Event) : DataSource :=
  match e with
  | LoadRequest => fetchMoreData_call s
  | TimerFired =>
      match suspended s with
      | O => s
      | S _ => fetchMoreData_resume s
      end
  end.

Definition run (s : DataSource) (es : list Event) : DataSource :=
  foldl step s es.

(** A load request followed by the end of its simulated delay. *)
Definition completedLoad (s : DataSource) : DataSource :=
  run s [LoadRequest; TimerFired].

Definition completedLoads (n : nat) (s : DataSource) : DataSource :=
  Nat.iter n completedLoad s.
End DataSource.

(** ** The sort and filter derivations of the table component *)

Inductive SortKey := sortBy_id | sortBy_name | sortBy_numericValue.
Inductive SortDirection := asc | desc.

(** A value read from a column: a number or a string. *)
Inductive Value := VNumber (n : Z) | VString (s : string).

(** [a[sortBy]] *)
Definition getField (a : Item.t) (sortBy : SortKey) : Value :=
  match sortBy with
  | sortBy_id => VNumber (Item.id a)
  | sortBy_name => VString (Item.name a)
  | sortBy_numericValue => VNumber (Item.numericValue a)
  end.

(** [x < y].  Both operands come from the same column, so a number never
    meets a string. *)
Definition lessThan (x y : Value) : bool :=
  match x, y with
  | VNumber m, VNumber n => m <? n
  | VString s, VString t => String.ltb s t
  | _, _ => false
  end.

(** The comparator handed to [sort].  [Number(...)] is applied to the
    columns [id] and [numericValue], which hold numbers already. *)
Definition compareFn (sortBy : SortKey) (sortDirection : SortDirection)
    (a b : Item.t) : Z :=
  let aValue := getField a sortBy in
  let bValue := getField b sortBy in
  if lessThan aValue bValue then
    match sortDirection with asc => -1 | desc => 1 end
  else if lessThan bValue aValue then
    match sortDirection with asc => 1 | desc => -1 end
  else 0.

(** [Array.prototype.sort] is stable: an element moves before another one
    only when the comparator orders them strictly.  It is embedded as the
    insertion of each element, from the last one to the first one, before
    the first element that it does not follow. *)
Fixpoint sortInsert {A} (compare : A → A → Z) (x : A) (l : list A) : list A :=
  match l with
  | [] => [x]
  | y :: l' => if compare x y <=? 0 then x :: l else y :: sortInsert compare x l'
  end.

Definition arraySort {A} (compare : A → A → Z) (l : list A) : list A :=
  foldr (sortInsert compare) [] l.

Definition sortedData (data : list Item.t) (sortBy : SortKey)
    (sortDirection : SortDirection) : list Item.t :=
  match data with
  | [] => []
  | _ => arraySort (compareFn sortBy sortDirection) data
  end.

Definition matchesFilter (lowerCaseFilter : string) (item : Item.t) : bool :=
  includes (toString (Item.id item)) lowerCaseFilter
  || includes (toLowerCase (Item.name item)) lowerCaseFilter
  || includes (toLowerCase (Item.status item)) lowerCaseFilter.

Definition filteredAndSortedData (sortedData : list Item.t)
    (debouncedFilter : string) : list Item.t :=
  match debouncedFilter with
  | EmptyString => sortedData
  | _ =>
      let lowerCaseFilter := toLowerCase debouncedFilter in
      List.filter (matchesFilter lowerCaseFilter) sortedData
  end.

Definition isActive (item : Item.t) : bool := String.eqb (Item.status item) "Active".

(** ** The debounce hook [useDebounce]

    The value and the delay of the latest render (the dependencies of the
    effect), the state cell, and the timeout that the effect has set and
    not yet cleared, with the value that its callback holds. *)
Record Debounce := mkDebounce {
  db_value : string;
  db_delay : Z;
  debouncedValue : string;
  handler : option string;
}.

(** The first render and its effect. *)
Definition useDebounce (value : string) (delay : Z) : Debounce :=
  {| db_value := value;
     db_delay := delay;
     debouncedValue := value;
     handler := Some value |}.

(** A later render.  When a dependency has changed, the cleanup of the
    effect clears the timeout and the effect sets a new one. *)
Definition useDebounce_render (value : string) (delay : Z) (s : Debounce)
    : Debounce :=
  if String.eqb value (db_value s) && (delay =? db_delay s) then s
  else {| db_value := value;
          db_delay := delay;
          debouncedValue := debouncedValue s;
          handler := Some value |}.

(** The timeout fires: [setDebouncedValue(value)]. *)
Definition useDebounce_timeout (s : Debounce) : Debounce :=
  match handler s with
  | None => s
  | Some value =>
      {| db_value := db_value s;
         db_delay := db_delay s;
         debouncedValue := value;
         handler := None |}
  end.

Inductive DebounceEvent :=
  | Render (value : string) (delay : Z)
  | Timeout.

Definition debounceStep (s : Debounce) (e : DebounceEvent) : Debounce :=
  match e with
  | Render value delay => useDebounce_render value delay s
  | Timeout => useDebounce_timeout s
  end.

Definition debounceRun (s : Debounce) (es : list DebounceEvent) : Debounce :=
  foldl debounceStep s es.

(** an event that is a render, not the firing of the timeout *)
Definition isRender (e : DebounceEvent) : bool :=
  match e with Render _ _ => true | Timeout => false end.

(** the timeout that is set holds the value of the latest render, and once
    it has fired the debounced value is that value *)
Definition debounceInvariant (s : Debounce) : Prop :=
  match handler s with
  | Some value => value = db_value s
  | None => debouncedValue s = db_value s
  end.

(** ** The table component: sort state, scroll handling, rendered rows *)

(** The sort state of the component and [listRef.current.scrollTop]
    ([None] while the list is not mounted). *)
Record SortState := mkSortState {
  st_sortBy : SortKey;
  st_sortDirection : SortDirection;
  st_listScrollTop : option Q;
}.

Definition SortKey_eqb (a b : SortKey) : bool :=
  match a, b with
  | sortBy_id, sortBy_id
  | sortBy_name, sortBy_name
  | sortBy_numericValue, sortBy_numericValue => true
  | _, _ => false
  end.

Definition handleSort (column : SortKey) (s : SortState) : SortState :=
  let listScrollTop :=
    match st_listScrollTop s with
    | Some _ => Some 0%Q
    | None => None
    end in
  if SortKey_eqb (st_sortBy s) column then
    {| st_sortBy := st_sortBy s;
       st_sortDirection :=
         match st_sortDirection s with asc => desc | desc => asc end;
       st_listScrollTop := listScrollTop |}
  else
    {| st_sortBy := column;
       st_sortDirection := asc;
       st_listScrollTop := listScrollTop |}.

(** [e.currentTarget] of a scroll event *)
Record ScrollTarget := mkScrollTarget {
  scrollTop : Q;
  clientHeight : Q;
  scrollHeight : Q;
}.

(** [onScroll]: the new value of the state cell [scrollOffset] *)
Definition onScroll (target : ScrollTarget) : Q := scrollTop target.

(** [checkLoadMore] of a render that has seen the state [s]; see
    [checkLoadMore_of] for the callback of an earlier render. *)
Definition checkLoadMore (target : ScrollTarget) (s : DataSource) : DataSource :=
  let scrollBottom := (scrollTop target + clientHeight target)%Q in
  let scrollThreshold := (scrollHeight target - LIST_HEIGHT * 2)%Q in
  if hasMore s && negb (isLoading s) && Qle_bool scrollThreshold scrollBottom
  then fetchMoreData_call s
  else s.


Definition itemCount (hasMore : bool) (filteredLength : Z) : Z :=
  if hasMore then filteredLength + CHUNK_SIZE else filteredLength.

(** An element of [renderedRows] with its React key: a data row, with the
    item and the index it is given, or a skeleton row. *)
Inductive RenderedRow :=
  | DataRow (key : Z) (item : Item.t) (index : Z)
  | SkeletonRow (key : Z).

Definition renderedRows (visibleItems : list Item.t) (startIndex : Z)
    (isLoading : bool) (filteredLength itemCount : Z) : list RenderedRow :=
  let rows :=
    imap (λ index item,
            DataRow (Item.id item) item (startIndex + Z.of_nat index))
         visibleItems in
  if isLoading
     && (filteredLength <=? startIndex + Z.of_nat (length visibleItems))
  then
    let skeletonCount := Z.min CHUNK_SIZE (itemCount - filteredLength) in
    rows ++ (SkeletonRow <$> seqZ 0 skeletonCount)
  else rows.

(** The rows that the component renders for a data source, a sort state, a
    debounced filter and a scroll offset. *)
Definition tableView (source : DataSource) (sortBy : SortKey)
    (sortDirection : SortDirection) (debouncedFilter : string)
    : list Item.t :=
  filteredAndSortedData (sortedData (data source) sortBy sortDirection)
    debouncedFilter.

Definition tableRows (source : DataSource) (sortBy : SortKey)
    (sortDirection : SortDirection) (debouncedFilter : string)
    (scrollOffset : Q) : list RenderedRow :=
  let view := tableView source sortBy sortDirection debouncedFilter in
  let w := useVirtualizedList view LIST_HEIGHT RowHeight defaultOverscanCount
             scrollOffset in
  let filteredLength := Z.of_nat (length view) in
  renderedRows (vl_visibleItems w) (vl_startIndex w) (isLoading source)
    filteredLength (itemCount (hasMore source) filteredLength).

(** The condition under which the component renders the footer
    [End of list]: [!hasMore && data.length > 0]. *)
Definition showEndOfList (source : DataSource) : bool :=
  negb (hasMore source) && (0 <? Z.of_nat (length (data source))).

(** Two records stand in the order of a column and a direction when the
    second one is not strictly before the first one. *)
Definition inOrder (sortBy : SortKey) (sortDirection : SortDirection)
    : relation Item.t :=
  λ a b,
    match sortDirection with
    | asc => lessThan (getField b sortBy) (getField a sortBy) = false
    | desc => lessThan (getField a sortBy) (getField b sortBy) = false
    end.

(** ** The callbacks of one render

    [fetchMoreData] and [checkLoadMore] are built by a render and hold the
    values that [isLoading] and [hasMore] had in that render; the state
    cells move on when a setter is called, the callbacks of a render do
    not.  [fetchMoreData_call] and [checkLoadMore] above are the callbacks
    of a render that has seen the current state. *)
Record Closure := mkClosure {
  c_isLoading : bool;
  c_hasMore : bool;
}.

(** the constants that a render of the state [s] hands to its callbacks *)
Definition closureOf (s : DataSource) : Closure :=
  {| c_isLoading := isLoading s; c_hasMore := hasMore s |}.

(** [fetchMoreData] of a render, up to its [await]: the guard reads the
    constants of the render, [setIsLoading(true)] writes the state. *)
Definition fetchMoreData (c : Closure) (s : DataSource) : DataSource :=
  if c_isLoading c || negb (c_hasMore c) then s
  else {| data := data s;
          isLoading := true;
          hasMore := hasMore s;
          loadedCount := loadedCount s;
          suspended := S (suspended s) |}.

(** [checkLoadMore] of a render *)
Definition checkLoadMore_of (c : Closure) (target : ScrollTarget)
    (s : DataSource) : DataSource :=
  let scrollBottom := (scrollTop target + clientHeight target)%Q in
  let scrollThreshold := (scrollHeight target - LIST_HEIGHT * 2)%Q in
  if c_hasMore c && negb (c_isLoading c) && Qle_bool scrollThreshold scrollBottom
  then fetchMoreData c s
  else s.

(** The mounted component: the data source, the callbacks of the latest
    render, and the scroll offset of the windowing hook. *)
Record Component := mkComponent {
  source : DataSource;
  closure : Closure;
  offset : Q;
}.

(** What can happen to the component: React renders it again, the
    callback [fetchMoreData] of the latest render is called, a scroll event
    is handled by [handleScroll] of the latest render, or the timer of a
    suspended call fires. *)
Inductive ComponentEvent :=
  | Rerender
  | Request
  | Scroll (target : ScrollTarget)
  | Timer.

Section Component.
Variable randomValue : Z → Z.

Definition mount : Component :=
  {| source := useDataFetching randomValue;
     closure := closureOf (useDataFetching randomValue);
     offset := 0 |}.

Definition componentStep (h : Component) (e : ComponentEvent) : Component :=
  match e with
  | Rerender =>
      {| source := source h; closure := closureOf (source h);
         offset := offset h |}
  | Request =>
      {| source := fetchMoreData (closure h) (source h);
         closure := closure h; offset := offset h |}
  | Scroll target =>
      {| source := checkLoadMore_of (closure h) target (source h);
         closure := closure h; offset := onScroll target |}
  | Timer =>
      {| source := step randomValue (source h) TimerFired;
         closure := closure h; offset := offset h |}
  end.

Definition componentRun (h : Component) (es : list ComponentEvent)
    : Component :=
  foldl componentStep h es.
End Component.

(** ** The windowing hook in double precision

    The hook computes with IEEE 754 doubles.  Here the pixel measures are
    doubles, the two quotients are the rounded quotients of doubles, and
    [Math.floor] and [Math.ceil] take the rounded quotient.  The indices are
    integers; the embedding follows them while they are safe integers, on
    which the arithmetic of doubles is exact, and gives [None] otherwise
    (an infinite or undefined quotient, an index beyond 2^53).  The windowing
    section above is the same hook in exact rational arithmetic. *)

(** the rational number that a finite double is, in lowest terms: the
    mantissa [m], with the sign, times [2 ^ e] *)
Definition numberValue (x : PrimFloat.float) : option Q :=
  match FloatOps.Prim2SF x with
  | SpecFloat.S754_zero _ => Some 0%Q
  | SpecFloat.S754_finite s m e =>
      Some (Qred (inject_Z (if s then Z.neg m else Z.pos m) * Qpower 2 e))
  | SpecFloat.S754_infinity _ | SpecFloat.S754_nan => None
  end.

Definition MAX_SAFE_INTEGER : Z := 2 ^ 53 - 1.

Definition safeInteger (n : Z) : option Z :=
  if Z.abs n <=? MAX_SAFE_INTEGER then Some n else None.

(** the double that is a safe integer *)
Definition toNumber (n : Z) : PrimFloat.float :=
  if n <? 0
  then PrimFloat.opp (PrimFloat.of_uint63 (Uint63.of_Z (- n)))
  else PrimFloat.of_uint63 (Uint63.of_Z n).

(** the double that the decimal literal of [n / d] denotes: the double
    nearest to the quotient of two safe integers *)
Definition decimal (n d : Z) : PrimFloat.float :=
  PrimFloat.div (toNumber n) (toNumber d).

Definition Math_floor (x : PrimFloat.float) : option Z :=
  numberValue x ≫= λ q, safeInteger (Qfloor q).

Definition Math_ceil (x : PrimFloat.float) : option Z :=
  numberValue x ≫= λ q, safeInteger (Qceiling q).

Module Double.
Section Windowing.
Context {A : Type}.
Variables (items : list A) (listHeight rowHeight : PrimFloat.float).
Variable overscanCount : Z.
Variable scrollOffset : PrimFloat.float.

Definition totalHeight : PrimFloat.float :=
  PrimFloat.mul (toNumber (Z.of_nat (length items))) rowHeight.

Definition startIndex : option Z :=
  Math_floor (PrimFloat.div scrollOffset rowHeight) ≫= λ q,
  safeInteger overscanCount ≫= λ o,
  safeInteger (q - o) ≫= λ d,
  Some (Z.max 0 d).

Definition endIndex : option Z :=
  Math_ceil (PrimFloat.div (PrimFloat.add scrollOffset listHeight) rowHeight)
  ≫= λ q,
  safeInteger overscanCount ≫= λ o,
  safeInteger (q + o) ≫= λ d,
  Some (Z.min (Z.of_nat (length items)) d).

Definition visibleItems : option (list A) :=
  startIndex ≫= λ first, endIndex ≫= λ last, Some (slice items first last).

Definition listTranslateY : option PrimFloat.float :=
  startIndex ≫= λ first, Some (PrimFloat.mul (toNumber first) rowHeight).
End Windowing.

(** What the hook hands to the component. *)
Record VirtualizedList (A : Type) := mkVirtualizedList {
  vl_visibleItems : list A;
  vl_startIndex : Z;
  vl_contentHeight : PrimFloat.float;
  vl_translateY : PrimFloat.float;
  vl_totalHeight : PrimFloat.float;
}.
Arguments mkVirtualizedList {A}.
Arguments vl_visibleItems {A}.
Arguments vl_startIndex {A}.
Arguments vl_contentHeight {A}.
Arguments vl_translateY {A}.
Arguments vl_totalHeight {A}.

Definition useVirtualizedList {A} (items : list A)
    (listHeight rowHeight : PrimFloat.float) (overscanCount : Z)
    (scrollOffset : PrimFloat.float) : option (VirtualizedList A) :=
  visibleItems items listHeight rowHeight overscanCount scrollOffset
  ≫= λ visible,
  startIndex rowHeight overscanCount scrollOffset ≫= λ first,
  listTranslateY rowHeight overscanCount scrollOffset ≫= λ translate,
  Some {| vl_visibleItems := visible;
          vl_startIndex := first;
          vl_contentHeight := totalHeight items rowHeight;
          vl_translateY := translate;
          vl_totalHeight := totalHeight items rowHeight |}.
End Double.

(** ** What the loaded rows keep whichever calls pass the guard

    The loaded rows are the first [loadedCount] rows of the full data,
    [loadedCount] is a multiple of the chunk size within its bounds, and
    [hasMore] says whether rows remain. *)
Record rowsInvariant (randomValue : Z → Z) (s : DataSource) : Prop := {
  rows_range : INITIAL_LOAD_COUNT <= loadedCount s <= TOTAL_ROWS;
  rows_chunked : (CHUNK_SIZE | loadedCount s);
  rows_prefix :
    data s = take (Z.to_nat (loadedCount s)) (initialFullData randomValue);
  rows_hasMore : hasMore s = (loadedCount s <? TOTAL_ROWS);
}.
Arguments rows_range {randomValue} s _.
Arguments rows_chunked {randomValue} s _.
Arguments rows_prefix {randomValue} s _.
Arguments rows_hasMore {randomValue} s _.

(** * Specification vocabulary *)

(** ** Floor and ceiling, as the integers around a rational *)

Definition isFloor (x : Q) (n : Z) : Prop :=
  (inject_Z n <= x)%Q ∧ (x < inject_Z (n + 1))%Q.

Definition isCeiling (x : Q) (n : Z) : Prop :=
  (inject_Z (n - 1) < x)%Q ∧ (x <= inject_Z n)%Q.

(** a record that [generateData] has pushed *)
Definition isGenerated (randomValue : Z → Z) (item : Item.t) : Prop :=
  ∃ i, item = generateItem randomValue i.

Global Instance Value_eq_dec : EqDecision Value.
Proof. solve_decision. Defined.

(** every character of the string passes the test *)
Fixpoint allChars (test : ascii → bool) (s : string) : bool :=
  match s with
  | EmptyString => true
  | String c s' => test c && allChars test s'
  end.

(** a character that stands before the letters: a digit, a sign, a space *)
Definition beforeLetters (c : ascii) : bool := (N_of_ascii c <? 65)%N.

(** the order that a comparator induces: [x] may stay before [y] *)
Definition notAfter {A} (compare : A → A → Z) : relation A :=
  λ x y, compare x y <= 0.

(** a comparator never orders two elements both ways *)
Definition consistentComparator {A} (compare : A → A → Z) : Prop :=
  ∀ x y, 0 < compare x y → compare y x <= 0.

(** the strict order of a column *)
Definition keyBefore (sortBy : SortKey) (sortDirection : SortDirection)
    : relation Item.t :=
  λ a b,
    match sortDirection with
    | asc => lessThan (getField a sortBy) (getField b sortBy) = true
    | desc => lessThan (getField b sortBy) (getField a sortBy) = true
    end.

(** ** The invariant of the data source

    The loaded rows are a prefix of the full data of length [loadedCount],
    [hasMore] says whether rows remain, and a call is suspended exactly
    while [isLoading] is set. *)
Record dataSourceInvariant (randomValue : Z → Z) (s : DataSource) : Prop := {
  inv_range : INITIAL_LOAD_COUNT <= loadedCount s <= TOTAL_ROWS;
  inv_prefix :
    data s = take (Z.to_nat (loadedCount s)) (initialFullData randomValue);
  inv_hasMore : hasMore s = (loadedCount s <? TOTAL_ROWS);
  inv_suspended : suspended s = if isLoading s then 1%nat else 0%nat;
}.
Arguments inv_range {randomValue} s _.
Arguments inv_prefix {randomValue} s _.
Arguments inv_hasMore {randomValue} s _.
Arguments inv_suspended {randomValue} s _.

Global Opaque initialFullData.

(** * Properties *)

(** ** Floor and ceiling *)

Lemma Qfloor_isFloor (x : Q) : isFloor x (Qfloor x).
Proof. split; [apply Qfloor_le | apply Qlt_floor]. Qed.

Lemma Qceiling_isCeiling (x : Q) : isCeiling x (Qceiling x).
Proof. split; [apply Qceiling_lt | apply Qle_ceiling]. Qed.

Lemma inject_Z_lt_inv (m n : Z) : (inject_Z m < inject_Z n)%Q → m < n.
Proof. by rewrite <- Zlt_Qlt. Qed.

Lemma isFloor_unique (x : Q) (m n : Z) : isFloor x m → isFloor x n → m = n.
Proof.
  intros [Hm1 Hm2] [Hn1 Hn2].
  assert (m < n + 1) by (apply inject_Z_lt_inv; lra).
  assert (n < m + 1) by (apply inject_Z_lt_inv; lra).
  lia.
Qed.

Lemma isCeiling_unique (x : Q) (m n : Z) : isCeiling x m → isCeiling x n → m = n.
Proof.
  intros [Hm1 Hm2] [Hn1 Hn2].
  assert (m - 1 < n) by (apply inject_Z_lt_inv; lra).
  assert (n - 1 < m) by (apply inject_Z_lt_inv; lra).
  lia.
Qed.

Lemma isFloor_Qfloor (x : Q) (n : Z) : isFloor x n → Qfloor x = n.
Proof. intros; eapply isFloor_unique; [apply Qfloor_isFloor | done]. Qed.

Lemma isCeiling_Qceiling (x : Q) (n : Z) : isCeiling x n → Qceiling x = n.
Proof. intros; eapply isCeiling_unique; [apply Qceiling_isCeiling | done]. Qed.

Lemma Qfloor_div_nonneg (s r : Q) : (0 <= s)%Q → (0 < r)%Q → 0 <= Qfloor (s / r).
Proof.
  intros Hs Hr. rewrite <- (Qfloor_Z 0). apply Qfloor_resp_le.
  apply Qle_shift_div_l; [done|]. change (inject_Z 0) with 0%Q. lra.
Qed.

Lemma Qceiling_div_nonneg (s r : Q) : (0 <= s)%Q → (0 < r)%Q → 0 <= Qceiling (s / r).
Proof.
  intros Hs Hr. rewrite <- (Qceiling_Z 0). apply Qceiling_resp_le.
  apply Qle_shift_div_l; [done|]. change (inject_Z 0) with 0%Q. lra.
Qed.


Lemma Qdiv_le_mono_r (x y r : Q) : (0 < r)%Q → (x <= y)%Q → (x / r <= y / r)%Q.
Proof.
  intros Hr Hxy. apply Qmult_le_compat_r; [done|].
  apply Qinv_le_0_compat. lra.
Qed.



(** ** [slice] *)

Lemma relativeIndex_nonneg (len k : Z) : 0 <= k → relativeIndex len k = Z.min k len.
Proof. intros Hk. unfold relativeIndex. by rewrite (proj2 (Z.ltb_ge k 0)). Qed.

Lemma slice_nil {A} (from to : Z) : slice (@nil A) from to = [].
Proof. unfold slice. by rewrite drop_nil, take_nil. Qed.

Lemma slice_take_drop {A} (l : list A) (from to : Z) :
  0 <= from → 0 <= to →
  slice l from to = take (Z.to_nat (to - from)) (drop (Z.to_nat from) l).
Proof.
  intros Hfrom Hto. unfold slice. rewrite !relativeIndex_nonneg by done.
  destruct (Z.le_gt_cases (Z.of_nat (length l)) from) as [Hlen|Hlen].
  - rewrite !drop_ge by lia. by rewrite !take_nil.
  - rewrite (Z.min_l from) by lia.
    destruct (Z.le_gt_cases to (Z.of_nat (length l))) as [Hto'|Hto'].
    + by rewrite (Z.min_l to) by lia.
    + rewrite (Z.min_r to) by lia.
      rewrite !take_ge; [done| |]; rewrite length_drop; lia.
Qed.

Lemma length_slice {A} (l : list A) (from to : Z) :
  0 <= from → 0 <= to →
  Z.of_nat (length (slice l from to)) =
  Z.max 0 (Z.min to (Z.of_nat (length l)) - Z.min from (Z.of_nat (length l))).
Proof.
  intros Hfrom Hto. unfold slice. rewrite !relativeIndex_nonneg by done.
  rewrite length_take, length_drop. lia.
Qed.

Lemma slice_prefix {A} (l : list A) (to : Z) :
  0 <= to → slice l 0 to = take (Z.to_nat to) l.
Proof. intros Hto. rewrite slice_take_drop by lia. by rewrite Z.sub_0_r. Qed.

Section WindowingFacts.
Context {A : Type}.
Implicit Types (items : list A) (listHeight rowHeight scrollOffset : Q).
Implicit Types (overscanCount : Z).

Lemma startIndex_nonneg rowHeight overscanCount scrollOffset :
  0 <= startIndex rowHeight overscanCount scrollOffset.
Proof. unfold startIndex. lia. Qed.

Lemma endIndex_le_count items listHeight rowHeight overscanCount scrollOffset :
  endIndex items listHeight rowHeight overscanCount scrollOffset
  <= Z.of_nat (length items).
Proof. unfold endIndex. lia. Qed.

Lemma endIndex_nonneg items listHeight rowHeight overscanCount scrollOffset :
  (0 < rowHeight)%Q → (0 < listHeight)%Q → 0 <= overscanCount →
  (0 <= scrollOffset)%Q →
  0 <= endIndex items listHeight rowHeight overscanCount scrollOffset.
Proof.
  intros Hr Hv Ho Hs. unfold endIndex.
  assert (0 <= Qceiling ((scrollOffset + listHeight) / rowHeight))
    by (apply Qceiling_div_nonneg; lra).
  lia.
Qed.



(** C9.  With no items the hook yields no visible item and a total height
    of zero, for every scroll offset (and every geometry): the slice of the
    empty array is empty whatever the two indices are. *)
Theorem empty_window listHeight rowHeight overscanCount scrollOffset :
  let w := useVirtualizedList (@nil A) listHeight rowHeight overscanCount
             scrollOffset in
  vl_visibleItems w = []
  ∧ (vl_totalHeight w == 0)%Q
  ∧ (vl_contentHeight w == 0)%Q
  ∧ endIndex (@nil A) listHeight rowHeight overscanCount scrollOffset <= 0.
Proof.
  cbn zeta. unfold useVirtualizedList, visibleItems, contentHeight,
    totalHeight.
  cbn [vl_visibleItems vl_totalHeight vl_contentHeight length].
  rewrite slice_nil. repeat split; try apply Qmult_0_l.
  unfold endIndex. cbn [length]. lia.
Qed.
End WindowingFacts.



Section DataSourceFacts.
Variable randomValue : Z → Z.
Local Abbreviation fullData := (initialFullData randomValue).
Local Abbreviation invariant := (dataSourceInvariant randomValue).
Implicit Types (s : DataSource) (es : list Event).

Lemma length_generateData (count : Z) :
  length (generateData randomValue count) = Z.to_nat count.
Proof. unfold generateData. by rewrite length_fmap, length_seqZ. Qed.

Lemma length_initialFullData : Z.of_nat (length fullData) = TOTAL_ROWS.
Proof.
  with_strategy transparent [initialFullData] unfold initialFullData.
  rewrite length_generateData. by apply Z2Nat.id.
Qed.

(** the chunk that a resumed call reads *)
Lemma nextData_take_drop (n : Z) :
  0 <= n →
  slice fullData n (n + CHUNK_SIZE)
  = take (Z.to_nat CHUNK_SIZE) (drop (Z.to_nat n) fullData).
Proof.
  intros Hn. rewrite slice_take_drop by (unfold CHUNK_SIZE; lia).
  do 2 f_equal. lia.
Qed.

Lemma length_nextData (n : Z) :
  0 <= n <= TOTAL_ROWS →
  Z.of_nat (length (slice fullData n (n + CHUNK_SIZE)))
  = Z.min CHUNK_SIZE (TOTAL_ROWS - n).
Proof.
  intros Hn. rewrite length_slice by (unfold CHUNK_SIZE; lia).
  rewrite length_initialFullData. unfold CHUNK_SIZE in *. lia.
Qed.

Lemma nextData_remaining (n : Z) :
  0 <= n <= TOTAL_ROWS →
  slice fullData n (n + CHUNK_SIZE)
  = take (Z.to_nat (Z.min CHUNK_SIZE (TOTAL_ROWS - n)))
      (drop (Z.to_nat n) fullData).
Proof.
  intros Hn. rewrite nextData_take_drop by lia.
  destruct (Z.le_gt_cases CHUNK_SIZE (TOTAL_ROWS - n)).
  - by rewrite Z.min_l.
  - rewrite Z.min_r by lia.
    rewrite !take_ge; [done|..]; rewrite length_drop;
      pose proof length_initialFullData; lia.
Qed.

Ltac fields := cbn [data isLoading hasMore loadedCount suspended].

Lemma invariant_init : invariant (useDataFetching randomValue).
Proof.
  unfold useDataFetching.
  split; fields; [done | by apply slice_prefix | done..].
Qed.

Lemma invariant_call s : invariant s → invariant (fetchMoreData_call s).
Proof.
  intros [Hr Hp Hh Hs]. unfold fetchMoreData_call.
  destruct (isLoading s) eqn:Hl; cbn [orb]; [by split; rewrite ?Hl|].
  destruct (hasMore s) eqn:Hm; cbn [negb]; [|by split; rewrite ?Hl, ?Hm].
  split; fields; try done. by rewrite Hs.
Qed.

Lemma invariant_resume s :
  invariant s → invariant (fetchMoreData_resume randomValue s).
Proof.
  intros [Hr Hp Hh Hs]. unfold fetchMoreData_resume.
  assert (0 <= loadedCount s <= TOTAL_ROWS) as Hr'
    by (unfold INITIAL_LOAD_COUNT in *; lia).
  rewrite (length_nextData _ Hr').
  destruct (Z.ltb_spec 0 (Z.min CHUNK_SIZE (TOTAL_ROWS - loadedCount s)))
    as [Hpos|Hpos].
  - split; fields.
    + unfold CHUNK_SIZE in *. lia.
    + rewrite Hp, nextData_remaining by done.
      rewrite take_take_drop. f_equal. lia.
    + done.
    + rewrite Hs. by destruct (isLoading s).
  - split; fields; try done.
    + symmetry. apply Z.ltb_ge. unfold CHUNK_SIZE in *. lia.
    + rewrite Hs. by destruct (isLoading s).
Qed.

Lemma invariant_step s e : invariant s → invariant (step randomValue s e).
Proof.
  intros Hs. destruct e; cbn [step].
  - by apply invariant_call.
  - destruct (suspended s); [done|]. by apply invariant_resume.
Qed.

Lemma invariant_run s es : invariant s → invariant (run randomValue s es).
Proof.
  revert s. induction es as [|e es IH]; intros s Hs; [done|].
  cbn [run foldl]. apply IH, invariant_step, Hs.
Qed.

Lemma invariant_reachable es : invariant (run randomValue (useDataFetching randomValue) es).
Proof. apply invariant_run, invariant_init. Qed.

(** *** One completed load *)

Lemma resume_after_call s :
  isLoading s = false → hasMore s = true →
  completedLoad randomValue s
  = fetchMoreData_resume randomValue (fetchMoreData_call s).
Proof.
  intros Hl Hm. unfold completedLoad, run. cbn [foldl step].
  unfold fetchMoreData_call. rewrite Hl, Hm. cbn [orb negb]. by fields.
Qed.

Lemma completedLoad_exhausted s :
  invariant s → isLoading s = false → hasMore s = false →
  completedLoad randomValue s = s.
Proof.
  intros Hs Hl Hm. unfold completedLoad, run. cbn [foldl step].
  unfold fetchMoreData_call. rewrite Hl, Hm. cbn [orb negb].
  by rewrite (inv_suspended s Hs), Hl.
Qed.

Lemma completedLoad_loadedCount s :
  invariant s → isLoading s = false →
  loadedCount (completedLoad randomValue s)
    = Z.min TOTAL_ROWS (loadedCount s + CHUNK_SIZE)
  ∧ isLoading (completedLoad randomValue s) = false.
Proof.
  intros Hs Hl. pose proof (inv_range s Hs) as Hr.
  pose proof (inv_hasMore s Hs) as Hh.
  destruct (hasMore s) eqn:Hm.
  - rewrite resume_after_call by done.
    symmetry in Hh. apply Z.ltb_lt in Hh.
    unfold fetchMoreData_call. rewrite Hl, Hm. cbn [orb negb].
    unfold fetchMoreData_resume. fields.
    rewrite length_nextData by (unfold INITIAL_LOAD_COUNT in *; lia).
    rewrite (proj2 (Z.ltb_lt 0 _)) by (unfold CHUNK_SIZE; lia).
    fields. split; [lia|done].
  - rewrite completedLoad_exhausted by done.
    symmetry in Hh. apply Z.ltb_ge in Hh.
    split; [unfold CHUNK_SIZE; lia|done].
Qed.

Lemma completedLoads_S (n : nat) s :
  completedLoads randomValue (S n) s
  = completedLoad randomValue (completedLoads randomValue n s).
Proof. reflexivity. Qed.

Lemma invariant_completedLoads (n : nat) s :
  invariant s → invariant (completedLoads randomValue n s).
Proof.
  intros Hs. induction n as [|n IH]; [done|].
  rewrite completedLoads_S. by apply invariant_run.
Qed.

Lemma completedLoads_loadedCount (n : nat) :
  let s := completedLoads randomValue n (useDataFetching randomValue) in
  loadedCount s
    = Z.min TOTAL_ROWS (INITIAL_LOAD_COUNT + Z.of_nat n * CHUNK_SIZE)
  ∧ isLoading s = false.
Proof.
  induction n as [|n [IHc IHl]]; [done|].
  cbn zeta in *. rewrite completedLoads_S.
  destruct (completedLoad_loadedCount
              (completedLoads randomValue n (useDataFetching randomValue)))
    as [Hc Hl]; [by apply invariant_completedLoads, invariant_init|done|].
  split; [|done]. rewrite Hc, IHc.
  unfold CHUNK_SIZE. lia.
Qed.

Lemma resume_appends s :
  0 <= loadedCount s <= TOTAL_ROWS →
  let remaining := TOTAL_ROWS - loadedCount s in
  let appended :=
    take (Z.to_nat (Z.min CHUNK_SIZE remaining))
      (drop (Z.to_nat (loadedCount s)) fullData) in
  let s' := fetchMoreData_resume randomValue s in
  Z.of_nat (length appended) = Z.min CHUNK_SIZE remaining
  ∧ data s' = data s ++ appended
  ∧ loadedCount s' = loadedCount s + Z.min CHUNK_SIZE remaining.
Proof.
  intros Hr. cbn zeta. unfold fetchMoreData_resume.
  rewrite nextData_remaining by done.
  pose proof (length_nextData _ Hr) as Hlen.
  rewrite nextData_remaining in Hlen by done.
  set (appended := take _ _) in *. rewrite Hlen.
  split; [done|].
  destruct (Z.ltb_spec 0 (Z.min CHUNK_SIZE (TOTAL_ROWS - loadedCount s)))
    as [Hpos|Hpos]; fields; [done|].
  assert (length appended = 0%nat) as Hnil by lia.
  apply length_zero_iff_nil in Hnil. rewrite Hnil, app_nil_r.
  split; [done|]. unfold CHUNK_SIZE in *. lia.
Qed.

(** C7.  From the initial state ([loadedCount = 500], more rows to
    come) one completed load gives [loadedCount = 1000] with [hasMore]
    still set, nineteen completed loads give [loadedCount = 10000] with
    [hasMore] cleared and the whole data set loaded, and a twentieth
    request changes nothing.  Whenever a suspended call resumes with
    [0 <= loadedCount <= TOTAL_ROWS], it appends exactly the next
    [min(CHUNK_SIZE, TOTAL_ROWS - loadedCount)] rows of the full data and
    advances [loadedCount] by that number. *)
Theorem loading_scenario :
  let init := useDataFetching randomValue in
  let once := completedLoads randomValue 1 init in
  let all := completedLoads randomValue 19 init in
  (loadedCount init = 500 ∧ hasMore init = true)
  ∧ (loadedCount once = 1000 ∧ hasMore once = true
     ∧ data once = take (Z.to_nat 1000) fullData)
  ∧ (loadedCount all = 10000 ∧ hasMore all = false
     ∧ data all = fullData)
  ∧ (fetchMoreData_call all = all ∧ completedLoad randomValue all = all)
  ∧ (∀ s, 0 <= loadedCount s <= TOTAL_ROWS →
       let remaining := TOTAL_ROWS - loadedCount s in
       let appended :=
         take (Z.to_nat (Z.min CHUNK_SIZE remaining))
           (drop (Z.to_nat (loadedCount s)) fullData) in
       let s' := fetchMoreData_resume randomValue s in
       Z.of_nat (length appended) = Z.min CHUNK_SIZE remaining
       ∧ data s' = data s ++ appended
       ∧ loadedCount s' = loadedCount s + Z.min CHUNK_SIZE remaining).
Proof.
  intros init once all.
  assert (loadedCount init = 500 ∧ hasMore init = true) as I0 by done.
  pose proof (invariant_completedLoads 1 init invariant_init) as I1.
  pose proof (invariant_completedLoads 19 init invariant_init) as I19.
  destruct (completedLoads_loadedCount 1) as [C1 L1].
  destruct (completedLoads_loadedCount 19) as [C19 L19].
  change (loadedCount once = 1000) in C1.
  change (loadedCount all = 10000) in C19.
  change (isLoading all = false) in L19.
  change (invariant once) in I1. change (invariant all) in I19.
  clearbody init once all.
  assert (hasMore all = false) as M19
    by (by rewrite (inv_hasMore _ I19), C19).
  split; [done|]. split; [|split; [|split]].
  - split; [done|]. split.
    + by rewrite (inv_hasMore _ I1), C1.
    + by rewrite (inv_prefix _ I1), C1.
  - split; [done|]. split; [done|].
    rewrite (inv_prefix _ I19), C19. apply take_ge.
    pose proof length_initialFullData. unfold TOTAL_ROWS in *. lia.
  - split.
    + unfold fetchMoreData_call. rewrite M19, L19. done.
    + by apply completedLoad_exhausted.
  - intros s Hr. by apply resume_appends.
Qed.

Lemma resume_idle s :
  isLoading (fetchMoreData_resume randomValue s) = false
  ∧ suspended (fetchMoreData_resume randomValue s) = pred (suspended s).
Proof.
  unfold fetchMoreData_resume. destruct (0 <? _); by fields.
Qed.

(** *** [hasMore] follows [loadedCount] *)

Lemma loadedCount_step_mono s e :
  loadedCount s <= loadedCount (step randomValue s e).
Proof.
  destruct e; cbn [step].
  - unfold fetchMoreData_call. by destruct (_ || _).
  - destruct (suspended s); [done|]. unfold fetchMoreData_resume.
    destruct (0 <? _); fields; lia.
Qed.

Lemma loadedCount_run_mono s es :
  loadedCount s <= loadedCount (run randomValue s es).
Proof.
  revert s. induction es as [|e es IH]; intros s; [done|].
  cbn [run foldl]. etrans; [apply (loadedCount_step_mono s e)|apply IH].
Qed.

(** C10.  In every state that the data source reaches, [hasMore] is
    [loadedCount < TOTAL_ROWS]; so the step that brings [loadedCount] to
    [TOTAL_ROWS] clears [hasMore] itself, and once cleared [hasMore] stays
    cleared. *)
Theorem hasMore_tracks_loadedCount es :
  let s := run randomValue (useDataFetching randomValue) es in
  hasMore s = (loadedCount s <? TOTAL_ROWS)
  ∧ (∀ e, loadedCount (step randomValue s e) = TOTAL_ROWS →
          hasMore (step randomValue s e) = false)
  ∧ (∀ es', hasMore s = false → hasMore (run randomValue s es') = false).
Proof.
  intros s. pose proof (invariant_reachable es) as Hinv. fold s in Hinv.
  clearbody s. split; [apply (inv_hasMore s Hinv)|]. split.
  - intros e He.
    rewrite (inv_hasMore _ (invariant_step s e Hinv)), He. done.
  - intros es' Hm.
    rewrite (inv_hasMore _ (invariant_run s es' Hinv)).
    rewrite (inv_hasMore s Hinv) in Hm. apply Z.ltb_ge in Hm.
    apply Z.ltb_ge. pose proof (loadedCount_run_mono s es'). lia.
Qed.
End DataSourceFacts.

Lemma loading_scenario_witness :
  let s := useDataFetching (λ _, 0) in
  let remaining := TOTAL_ROWS - loadedCount s in
  let appended :=
    take (Z.to_nat (Z.min CHUNK_SIZE remaining))
      (drop (Z.to_nat (loadedCount s)) (initialFullData (λ _, 0))) in
  let s' := fetchMoreData_resume (λ _, 0) s in
  Z.of_nat (length appended) = Z.min CHUNK_SIZE remaining
  ∧ data s' = data s ++ appended
  ∧ loadedCount s' = loadedCount s + Z.min CHUNK_SIZE remaining.
Proof.
  destruct (loading_scenario (λ _, 0)) as (_ & _ & _ & _ & H).
  apply (H (useDataFetching (λ _, 0))).
  cbn [useDataFetching loadedCount].
  unfold INITIAL_LOAD_COUNT, TOTAL_ROWS. lia.
Defined.

(** ** [Array.prototype.sort] *)

Section ArraySort.
Context {A : Type} (compare : A → A → Z).

Lemma sortInsert_Permutation (x : A) (l : list A) :
  sortInsert compare x l ≡ₚ x :: l.
Proof.
  induction l as [|y l IH]; [done|]. cbn [sortInsert].
  destruct (compare x y <=? 0); [done|].
  rewrite IH. apply Permutation_swap.
Qed.

Lemma arraySort_Permutation (l : list A) : arraySort compare l ≡ₚ l.
Proof.
  induction l as [|x l IH]; [done|].
  cbn [arraySort foldr]. fold (arraySort compare l).
  by rewrite sortInsert_Permutation, IH.
Qed.

Lemma length_arraySort (l : list A) : length (arraySort compare l) = length l.
Proof. by rewrite arraySort_Permutation. Qed.

Lemma sortInsert_HdRel (x : A) (l : list A) :
  HdRel (notAfter compare) x l → sortInsert compare x l = x :: l.
Proof.
  destruct 1 as [|y l Hxy]; [done|]. cbn [sortInsert].
  by rewrite (proj2 (Z.leb_le _ _) Hxy).
Qed.

Lemma arraySort_Sorted_id (l : list A) :
  Sorted (notAfter compare) l → arraySort compare l = l.
Proof.
  induction 1 as [|x l Hl IH Hx]; [done|].
  cbn [arraySort foldr]. fold (arraySort compare l).
  rewrite IH. by apply sortInsert_HdRel.
Qed.

Section Consistent.
Hypothesis consistent : consistentComparator compare.

Lemma sortInsert_Sorted (x : A) (l : list A) :
  Sorted (notAfter compare) l →
  Sorted (notAfter compare) (sortInsert compare x l).
Proof.
  induction 1 as [|y l Hl IH Hy]; cbn [sortInsert].
  { by repeat constructor. }
  destruct (Z.leb_spec (compare x y) 0) as [Hxy|Hxy].
  { by repeat constructor. }
  constructor; [done|].
  destruct Hy as [|z l Hyz]; cbn [sortInsert] in *.
  - constructor. by apply consistent.
  - destruct (compare x z <=? 0); constructor; [|done].
    by apply consistent.
Qed.

Lemma arraySort_Sorted (l : list A) :
  Sorted (notAfter compare) (arraySort compare l).
Proof.
  induction l as [|x l IH]; [constructor|].
  cbn [arraySort foldr]. by apply sortInsert_Sorted.
Qed.

Lemma arraySort_idempotent (l : list A) :
  arraySort compare (arraySort compare l) = arraySort compare l.
Proof. apply arraySort_Sorted_id, arraySort_Sorted. Qed.
End Consistent.

(** With pairwise distinct keys the comparator decides a strict order,
    and the sorted array is strictly increasing for it. *)
Section DistinctKeys.
Context {K : Type} (key : A → K) (before : relation A).
Context `{!Transitive before}.
Hypothesis decides :
  ∀ x y, key x ≠ key y →
         if compare x y <=? 0 then before x y else before y x.

Lemma sortInsert_StronglySorted (x : A) (l : list A) :
  key x ∉ key <$> l →
  StronglySorted before l →
  StronglySorted before (sortInsert compare x l).
Proof.
  intros Hx Hl. induction Hl as [|y l Hl IH Hy]; cbn [sortInsert].
  { by repeat constructor. }
  rewrite fmap_cons, not_elem_of_cons in Hx. destruct Hx as [Hxy Hx].
  pose proof (decides x y Hxy) as Hd.
  destruct (compare x y <=? 0).
  - constructor; [by constructor|]. constructor; [done|].
    eapply Forall_impl; [apply Hy|]. intros z Hz. by etrans.
  - constructor; [by apply IH|].
    rewrite sortInsert_Permutation. by constructor.
Qed.

Lemma arraySort_StronglySorted (l : list A) :
  NoDup (key <$> l) → StronglySorted before (arraySort compare l).
Proof.
  induction l as [|x l IH]; [constructor|].
  rewrite fmap_cons, NoDup_cons. intros [Hx Hl].
  cbn [arraySort foldr]. fold (arraySort compare l).
  apply sortInsert_StronglySorted; [|by apply IH].
  by rewrite arraySort_Permutation.
Qed.
End DistinctKeys.
End ArraySort.

(** ** The order on strings *)

Lemma Ascii_compare_Lt (a b : ascii) :
  Ascii.compare a b = Lt ↔ (N_of_ascii a < N_of_ascii b)%N.
Proof. unfold Ascii.compare. by rewrite N.compare_lt_iff. Qed.

Lemma Ascii_compare_Eq (a b : ascii) : Ascii.compare a b = Eq ↔ a = b.
Proof.
  split; [apply Ascii.compare_eq_iff|].
  intros ->. unfold Ascii.compare. apply N.compare_refl.
Qed.

Lemma String_compare_Lt_trans (s t u : string) :
  String.compare s t = Lt → String.compare t u = Lt → String.compare s u = Lt.
Proof.
  revert t u. induction s as [|a s IH]; intros [|b t] [|c u]; cbn; try done.
  destruct (Ascii.compare a b) eqn:Hab; try done;
    destruct (Ascii.compare b c) eqn:Hbc; try done.
  - rewrite Ascii_compare_Eq in Hab, Hbc. subst.
    rewrite (proj2 (Ascii_compare_Eq c c) eq_refl). apply IH.
  - rewrite Ascii_compare_Eq in Hab. subst. by rewrite Hbc.
  - rewrite Ascii_compare_Eq in Hbc. subst. by rewrite Hab.
  - rewrite Ascii_compare_Lt in Hab, Hbc.
    assert (Ascii.compare a c = Lt) as -> by (apply Ascii_compare_Lt; lia).
    done.
Qed.

Lemma String_ltb_trans (s t u : string) :
  String.ltb s t = true → String.ltb t u = true → String.ltb s u = true.
Proof.
  unfold String.ltb. intros Hst Htu.
  destruct (String.compare s t) eqn:Est; try done.
  destruct (String.compare t u) eqn:Etu; try done.
  by rewrite (String_compare_Lt_trans s t u).
Qed.

Lemma String_ltb_asym (s t : string) :
  String.ltb s t = true → String.ltb t s = false.
Proof.
  unfold String.ltb. rewrite (String.compare_antisym t s).
  by destruct (String.compare s t).
Qed.

Lemma String_ltb_connected (s t : string) :
  String.ltb s t = false → String.ltb t s = false → s = t.
Proof.
  unfold String.ltb. rewrite (String.compare_antisym t s).
  destruct (String.compare s t) eqn:E; try done.
  intros _ _. by apply String.compare_eq_iff.
Qed.

(** ** [<] on the values of one column *)

Lemma lessThan_trans (x y z : Value) :
  lessThan x y = true → lessThan y z = true → lessThan x z = true.
Proof.
  destruct x, y, z; cbn; try done.
  - rewrite !Z.ltb_lt. lia.
  - apply String_ltb_trans.
Qed.

Lemma lessThan_asym (x y : Value) : lessThan x y = true → lessThan y x = false.
Proof.
  destruct x, y; cbn; try done.
  - rewrite Z.ltb_lt, Z.ltb_ge. lia.
  - apply String_ltb_asym.
Qed.

Lemma lessThan_connected (a b : Item.t) (sortBy : SortKey) :
  lessThan (getField a sortBy) (getField b sortBy) = false →
  lessThan (getField b sortBy) (getField a sortBy) = false →
  getField a sortBy = getField b sortBy.
Proof.
  destruct sortBy; cbn.
  - rewrite !Z.ltb_ge. intros. f_equal. lia.
  - intros. f_equal. by apply String_ltb_connected.
  - rewrite !Z.ltb_ge. intros. f_equal. lia.
Qed.

(** ** The comparator of the table *)

Lemma compareFn_consistent sortBy sortDirection :
  consistentComparator (compareFn sortBy sortDirection).
Proof.
  intros a b. unfold compareFn.
  destruct (lessThan (getField a sortBy) (getField b sortBy)) eqn:Hab.
  - rewrite (lessThan_asym _ _ Hab). by destruct sortDirection.
  - destruct (lessThan (getField b sortBy) (getField a sortBy));
      by destruct sortDirection.
Qed.

Lemma compareFn_decides sortBy sortDirection (a b : Item.t) :
  getField a sortBy ≠ getField b sortBy →
  if compareFn sortBy sortDirection a b <=? 0
  then keyBefore sortBy sortDirection a b
  else keyBefore sortBy sortDirection b a.
Proof.
  intros Hne. unfold compareFn, keyBefore.
  destruct (lessThan (getField a sortBy) (getField b sortBy)) eqn:Hab.
  - by destruct sortDirection.
  - destruct (lessThan (getField b sortBy) (getField a sortBy)) eqn:Hba.
    + by destruct sortDirection.
    + by destruct Hne; apply lessThan_connected.
Qed.

Global Instance keyBefore_trans sortBy sortDirection :
  Transitive (keyBefore sortBy sortDirection).
Proof.
  intros a b c. unfold keyBefore. destruct sortDirection.
  - apply lessThan_trans.
  - intros H1 H2. by apply (lessThan_trans _ _ _ H2 H1).
Qed.

Global Instance keyBefore_antisym sortBy sortDirection :
  AntiSymm (=) (keyBefore sortBy sortDirection).
Proof.
  intros a b. unfold keyBefore.
  destruct sortDirection; intros H1 H2;
    apply lessThan_asym in H1; congruence.
Qed.

Lemma keyBefore_flip sortBy (a b : Item.t) :
  keyBefore sortBy desc a b ↔ flip (keyBefore sortBy asc) a b.
Proof. done. Qed.

Lemma sortedData_arraySort data sortBy sortDirection :
  sortedData data sortBy sortDirection
  = arraySort (compareFn sortBy sortDirection) data.
Proof. by destruct data. Qed.

Lemma sortedData_Permutation data sortBy sortDirection :
  sortedData data sortBy sortDirection ≡ₚ data.
Proof. rewrite sortedData_arraySort. apply arraySort_Permutation. Qed.

(** C4.  Sorting a second time with the same column and direction gives the
    same array as sorting once: same length, same order, same records. *)
Theorem sort_idempotent data sortBy sortDirection :
  let once := sortedData data sortBy sortDirection in
  let twice := sortedData once sortBy sortDirection in
  twice = once ∧ length twice = length data ∧ twice ≡ₚ data.
Proof.
  cbn zeta. rewrite !sortedData_arraySort.
  rewrite arraySort_idempotent by apply compareFn_consistent.
  split; [done|]. split.
  - apply length_arraySort.
  - apply arraySort_Permutation.
Qed.

Lemma sortedData_StronglySorted data sortBy sortDirection :
  NoDup ((λ a, getField a sortBy) <$> data) →
  StronglySorted (keyBefore sortBy sortDirection)
    (sortedData data sortBy sortDirection).
Proof.
  intros Hnd. rewrite sortedData_arraySort.
  apply (arraySort_StronglySorted _ (λ a, getField a sortBy));
    [apply _ | apply compareFn_decides | done].
Qed.

(** C5.  When the values of the sort column are pairwise distinct, sorting
    descending gives the reverse of sorting ascending. *)
Theorem sort_desc_reverses_asc data sortBy :
  NoDup ((λ a, getField a sortBy) <$> data) →
  sortedData data sortBy desc = rev (sortedData data sortBy asc).
Proof.
  intros Hnd. rewrite rev_alt. fold (reverse (sortedData data sortBy asc)).
  apply (Sorted_unique (keyBefore sortBy desc)).
  - apply StronglySorted_Sorted. by apply sortedData_StronglySorted.
  - apply (Sorted_reverse (keyBefore sortBy asc)).
    apply StronglySorted_Sorted. by apply sortedData_StronglySorted.
  - by rewrite reverse_Permutation, !sortedData_Permutation.
Qed.

Lemma sort_desc_reverses_asc_witness :
  let data := [Item.mk 1 "b" 20 "Completed"; Item.mk 2 "c" 10 "Completed";
               Item.mk 3 "a" 30 "Pending"] in
  sortedData data sortBy_name desc = rev (sortedData data sortBy_name asc).
Proof.
  apply (sort_desc_reverses_asc
           [Item.mk 1 "b" 20 "Completed"; Item.mk 2 "c" 10 "Completed";
            Item.mk 3 "a" 30 "Pending"] sortBy_name).
  refine (bool_decide_unpack _ _). vm_compute. exact I.
Defined.

Lemma allChars_string_of_uint (d : Decimal.uint) :
  allChars beforeLetters (NilEmpty.string_of_uint d) = true.
Proof. induction d; cbn; done. Qed.

Lemma allChars_string_of_uint_zero (d : Decimal.uint) :
  allChars beforeLetters (NilZero.string_of_uint d) = true.
Proof. destruct d; [done | apply allChars_string_of_uint..]. Qed.

Lemma allChars_toString (n : Z) : allChars beforeLetters (toString n) = true.
Proof.
  unfold toString. destruct (Z.to_int n) as [d|d];
    cbn [NilZero.string_of_int allChars];
    by rewrite allChars_string_of_uint_zero.
Qed.

Lemma toLowerCaseChar_beforeLetters (c : ascii) :
  beforeLetters c = true → toLowerCaseChar c = c.
Proof.
  unfold beforeLetters, toLowerCaseChar. intros Hc%N.ltb_lt.
  by rewrite (proj2 (N.leb_gt 65 _) Hc).
Qed.

Lemma toLowerCase_beforeLetters (s : string) :
  allChars beforeLetters s = true → toLowerCase s = s.
Proof.
  induction s as [|c s IH]; [done|]. cbn.
  intros [Hc Hs]%andb_true_iff.
  by rewrite toLowerCaseChar_beforeLetters, IH.
Qed.

Lemma toLowerCase_append (s t : string) :
  toLowerCase (s +:+ t) = toLowerCase s +:+ toLowerCase t.
Proof. induction s as [|c s IH]; [done|]. simpl. by rewrite IH. Qed.

(** a text without letters holds no word *)
Lemma includes_beforeLetters (hay : string) (c : ascii) (needle : string) :
  beforeLetters c = false →
  allChars beforeLetters hay = true →
  includes hay (String c needle) = false.
Proof.
  intros Hc. induction hay as [|b hay IH]; [done|]. cbn.
  intros [Hb Hhay]%andb_true_iff.
  rewrite IH by done. destruct (ascii_dec c b) as [->|]; [congruence|done].
Qed.

Section FilterFacts.
Variable randomValue : Z → Z.

Lemma includes_id_active (i : Z) : includes (toString i) "active" = false.
Proof. apply includes_beforeLetters; [done|apply allChars_toString]. Qed.

Lemma includes_name_active (i : Z) :
  includes (toLowerCase (Item.name (generateItem randomValue i))) "active"
  = false.
Proof.
  cbn [generateItem Item.name]. rewrite toLowerCase_append.
  rewrite (toLowerCase_beforeLetters (toString i))
    by apply allChars_toString.
  pose proof (includes_id_active i) as Hi.
  cbn. destruct (toString i) as [|c t] eqn:E; [done|].
  cbn in *. destruct (ascii_dec "a" c); by rewrite ?Hi.
Qed.

Lemma matchesFilter_active_generated (i : Z) :
  matchesFilter "active" (generateItem randomValue i)
  = isActive (generateItem randomValue i).
Proof.
  unfold matchesFilter.
  rewrite includes_name_active.
  cbn [generateItem Item.id Item.status]. rewrite includes_id_active.
  unfold isActive. cbn [generateItem Item.status orb].
  by destruct (Z.rem i 5 =? 0), (Z.rem i 3 =? 0).
Qed.

Lemma isActive_generated (i : Z) :
  isActive (generateItem randomValue i) = (Z.rem i 5 =? 0).
Proof.
  unfold isActive. cbn [generateItem Item.status].
  by destruct (Z.rem i 5 =? 0), (Z.rem i 3 =? 0).
Qed.

Lemma filter_active_isGenerated (l : list Item.t) :
  Forall (isGenerated randomValue) l →
  filteredAndSortedData l "active" = List.filter isActive l.
Proof.
  intros Hl. cbn [filteredAndSortedData].
  change (toLowerCase "active") with "active".
  induction Hl as [|item l [i ->] Hl IH]; [done|].
  cbn [List.filter]. by rewrite matchesFilter_active_generated, IH.
Qed.

Lemma generateData_isGenerated (count : Z) :
  Forall (isGenerated randomValue) (generateData randomValue count).
Proof.
  unfold generateData. apply Forall_fmap, Forall_forall.
  intros i _. by exists i.
Qed.

Lemma sortedData_isGenerated l sortBy sortDirection :
  Forall (isGenerated randomValue) l →
  Forall (isGenerated randomValue) (sortedData l sortBy sortDirection).
Proof. by rewrite sortedData_Permutation. Qed.

Lemma loaded_isGenerated es :
  Forall (isGenerated randomValue)
    (data (run randomValue (useDataFetching randomValue) es)).
Proof.
  rewrite (inv_prefix _ (invariant_reachable randomValue es)).
  apply Forall_take.
  with_strategy transparent [initialFullData] unfold initialFullData.
  apply generateData_isGenerated.
Qed.

(** C6.  On generated records (status [Active] exactly for the ids that
    are multiples of 5, names [Item Name i]) the filter [active] keeps
    exactly the records whose status is [Active], in the order it found
    them: on the generated array itself, on the array after sorting, and on
    the sorted rows of every state of the data source. *)
Theorem filter_active_generated (count : Z) es sortBy sortDirection :
  let raw := generateData randomValue count in
  let loaded := data (run randomValue (useDataFetching randomValue) es) in
  filteredAndSortedData raw "active" = List.filter isActive raw
  ∧ filteredAndSortedData (sortedData raw sortBy sortDirection) "active"
    = List.filter isActive (sortedData raw sortBy sortDirection)
  ∧ filteredAndSortedData (sortedData loaded sortBy sortDirection) "active"
    = List.filter isActive (sortedData loaded sortBy sortDirection)
  ∧ (∀ i, isActive (generateItem randomValue i) = (Z.rem i 5 =? 0)).
Proof.
  intros raw loaded. repeat split.
  - apply filter_active_isGenerated, generateData_isGenerated.
  - apply filter_active_isGenerated, sortedData_isGenerated,
      generateData_isGenerated.
  - apply filter_active_isGenerated, sortedData_isGenerated,
      loaded_isGenerated.
  - apply isActive_generated.
Qed.
End FilterFacts.

(** * Further properties of the code *)

(** ** The window of [useVirtualizedList] *)

Section WindowContents.
Context {A : Type}.
Implicit Types (items : list A) (listHeight rowHeight scrollOffset : Q).
Implicit Types (overscanCount : Z).

Lemma lookup_slice items (from to : Z) (k : nat) :
  0 <= from → 0 <= to →
  slice items from to !! k
  = if decide (from + Z.of_nat k < to)
    then items !! (Z.to_nat from + k)%nat else None.
Proof.
  intros Hfrom Hto. rewrite slice_take_drop by done.
  case_decide as Hk.
  - rewrite lookup_take_lt by lia. apply lookup_drop.
  - apply lookup_take_ge. lia.
Qed.

Lemma length_visibleItems items listHeight rowHeight overscanCount
    scrollOffset :
  (0 < rowHeight)%Q → (0 < listHeight)%Q → 0 <= overscanCount →
  (0 <= scrollOffset)%Q →
  Z.of_nat (length (visibleItems items listHeight rowHeight overscanCount
                      scrollOffset))
  = Z.max 0 (endIndex items listHeight rowHeight overscanCount scrollOffset
             - startIndex rowHeight overscanCount scrollOffset).
Proof.
  intros Hr Hv Ho Hs.
  pose proof (startIndex_nonneg rowHeight overscanCount scrollOffset) as H0.
  pose proof (endIndex_nonneg items listHeight rowHeight overscanCount
                scrollOffset Hr Hv Ho Hs) as H1.
  pose proof (endIndex_le_count items listHeight rowHeight overscanCount
                scrollOffset) as H2.
  unfold visibleItems. rewrite length_slice by done. lia.
Qed.

Lemma lookup_visibleItems items listHeight rowHeight overscanCount
    scrollOffset (k : nat) :
  (0 < rowHeight)%Q → (0 < listHeight)%Q → 0 <= overscanCount →
  (0 <= scrollOffset)%Q →
  visibleItems items listHeight rowHeight overscanCount scrollOffset !! k
  = if decide (startIndex rowHeight overscanCount scrollOffset + Z.of_nat k
               < endIndex items listHeight rowHeight overscanCount
                   scrollOffset)
    then items !! (Z.to_nat (startIndex rowHeight overscanCount scrollOffset)
                   + k)%nat
    else None.
Proof.
  intros Hr Hv Ho Hs. unfold visibleItems. apply lookup_slice.
  - apply startIndex_nonneg.
  - by apply endIndex_nonneg.
Qed.


(** X2.  The visible items are the items from [startIndex] up to, and
    without, [endIndex]: as many as [endIndex - startIndex] when that is
    positive, none otherwise, and the item at place [k] of the window is the
    item at place [startIndex + k] of the list. *)
Theorem visibleItems_contents items listHeight rowHeight overscanCount
    scrollOffset :
  (0 < rowHeight)%Q → (0 < listHeight)%Q → 0 <= overscanCount →
  (0 <= scrollOffset)%Q →
  let first := startIndex rowHeight overscanCount scrollOffset in
  let last := endIndex items listHeight rowHeight overscanCount scrollOffset in
  let visible := visibleItems items listHeight rowHeight overscanCount
                   scrollOffset in
  Z.of_nat (length visible) = Z.max 0 (last - first)
  ∧ ∀ k : nat,
      visible !! k
      = if decide (first + Z.of_nat k < last)
        then items !! (Z.to_nat first + k)%nat else None.
Proof.
  intros Hr Hv Ho Hs first last visible. split.
  - by apply length_visibleItems.
  - intros k. by apply lookup_visibleItems.
Qed.

(** X3.  When the scroll offset lies [overscan] rows or more below the end
    of the list (the list has shrunk under a scrolled viewport), the hook
    hands out no item. *)
Theorem window_past_the_end items listHeight rowHeight overscanCount
    scrollOffset :
  (0 < rowHeight)%Q → (0 < listHeight)%Q → 0 <= overscanCount →
  (inject_Z (Z.of_nat (length items) + overscanCount) * rowHeight
   <= scrollOffset)%Q →
  visibleItems items listHeight rowHeight overscanCount scrollOffset = [].
Proof.
  intros Hr Hv Ho Hs.
  assert (0 <= scrollOffset)%Q as Hs0.
  { eapply Qle_trans; [|apply Hs]. apply Qmult_le_0_compat; [|lra].
    rewrite <- (Zle_Qle 0). lia. }
  assert (Z.of_nat (length items) + overscanCount
          <= Qfloor (scrollOffset / rowHeight)) as HF.
  { rewrite <- (Qfloor_Z (_ + _)). apply Qfloor_resp_le.
    by apply Qle_shift_div_l. }
  apply length_zero_iff_nil. apply Nat2Z.inj. unfold visibleItems.
  rewrite length_slice
    by (apply startIndex_nonneg || by apply endIndex_nonneg).
  unfold startIndex, endIndex. lia.
Qed.

(** X4.  Scrolling down never moves the window up: both indices are
    monotone in the scroll offset. *)
Theorem window_monotone items listHeight rowHeight overscanCount
    (scrollOffset scrollOffset' : Q) :
  (0 < rowHeight)%Q → (scrollOffset <= scrollOffset')%Q →
  startIndex rowHeight overscanCount scrollOffset
    <= startIndex rowHeight overscanCount scrollOffset'
  ∧ endIndex items listHeight rowHeight overscanCount scrollOffset
    <= endIndex items listHeight rowHeight overscanCount scrollOffset'.
Proof.
  intros Hr Hs.
  assert (Qfloor (scrollOffset / rowHeight)
          <= Qfloor (scrollOffset' / rowHeight)) as HF
    by (by apply Qfloor_resp_le, Qdiv_le_mono_r).
  assert (Qceiling ((scrollOffset + listHeight) / rowHeight)
          <= Qceiling ((scrollOffset' + listHeight) / rowHeight)) as HC
    by (apply Qceiling_resp_le, Qdiv_le_mono_r; [done|lra]).
  unfold startIndex, endIndex. lia.
Qed.


End WindowContents.

(** ** The sorted array *)

Lemma lessThan_irrefl (x : Value) : lessThan x x = false.
Proof.
  destruct (lessThan x x) eqn:E; [|done].
  by rewrite (lessThan_asym x x E) in E.
Qed.

Lemma lessThan_negtrans (a b c : Item.t) (sortBy : SortKey) :
  lessThan (getField a sortBy) (getField c sortBy) = true →
  lessThan (getField a sortBy) (getField b sortBy) = true
  ∨ lessThan (getField b sortBy) (getField c sortBy) = true.
Proof.
  intros Hac.
  destruct (lessThan (getField a sortBy) (getField b sortBy)) eqn:Hab;
    [by left|right].
  destruct (lessThan (getField b sortBy) (getField a sortBy)) eqn:Hba.
  - by apply (lessThan_trans _ _ _ Hba).
  - by rewrite <- (lessThan_connected a b sortBy Hab Hba).
Qed.

Lemma notAfter_inOrder sortBy sortDirection (a b : Item.t) :
  notAfter (compareFn sortBy sortDirection) a b
  ↔ inOrder sortBy sortDirection a b.
Proof.
  unfold notAfter, compareFn, inOrder.
  destruct (lessThan (getField a sortBy) (getField b sortBy)) eqn:Hab.
  - rewrite (lessThan_asym _ _ Hab). by destruct sortDirection.
  - destruct (lessThan (getField b sortBy) (getField a sortBy));
      by destruct sortDirection.
Qed.

Global Instance inOrder_trans sortBy sortDirection :
  Transitive (inOrder sortBy sortDirection).
Proof.
  intros a b c. unfold inOrder. destruct sortDirection; intros Hab Hbc.
  - destruct (lessThan (getField c sortBy) (getField a sortBy)) eqn:E;
      [|done].
    destruct (lessThan_negtrans c b a sortBy E); congruence.
  - destruct (lessThan (getField a sortBy) (getField c sortBy)) eqn:E;
      [|done].
    destruct (lessThan_negtrans a b c sortBy E); congruence.
Qed.

Global Instance notAfter_compareFn_trans sortBy sortDirection :
  Transitive (notAfter (compareFn sortBy sortDirection)).
Proof.
  intros a b c. rewrite !notAfter_inOrder. apply inOrder_trans.
Qed.

Lemma sortedData_Sorted data sortBy sortDirection :
  Sorted (notAfter (compareFn sortBy sortDirection))
    (sortedData data sortBy sortDirection).
Proof.
  rewrite sortedData_arraySort.
  apply arraySort_Sorted, compareFn_consistent.
Qed.

Lemma StronglySorted_weaken {A} (R1 R2 : relation A) (l : list A) :
  (∀ x y, R1 x y → R2 x y) → StronglySorted R1 l → StronglySorted R2 l.
Proof.
  intros HR. induction 1 as [|x l Hl IH Hx]; constructor; [done|].
  eapply Forall_impl; [apply Hx|]. intros y. apply HR.
Qed.

(** X7.  The sorted array holds the same records as the data, each as
    often, and no record stands before one that the column and direction
    order strictly before it. *)
Theorem sortedData_ordered data sortBy sortDirection :
  sortedData data sortBy sortDirection ≡ₚ data
  ∧ StronglySorted (inOrder sortBy sortDirection)
      (sortedData data sortBy sortDirection).
Proof.
  split; [apply sortedData_Permutation|].
  apply (StronglySorted_weaken (notAfter (compareFn sortBy sortDirection))).
  - intros a b. apply notAfter_inOrder.
  - apply Sorted_StronglySorted; [apply _|apply sortedData_Sorted].
Qed.

Section Stable.
Context {A : Type} (compare : A → A → Z).
Context (P : A → Prop) `{!∀ x, Decision (P x)}.
Hypothesis tied : ∀ x y, P x → P y → compare x y <= 0.

Lemma filter_sortInsert_tied (x : A) (l : list A) :
  filter P (sortInsert compare x l)
  = if decide (P x) then x :: filter P l else filter P l.
Proof.
  induction l as [|y l IH]; cbn [sortInsert].
  { rewrite filter_cons, filter_nil. by case_decide. }
  destruct (Z.leb_spec (compare x y) 0) as [Hxy|Hxy].
  { rewrite filter_cons. by case_decide. }
  rewrite !(filter_cons _ y), IH.
  destruct (decide (P x)) as [Hx|Hx], (decide (P y)) as [Hy|Hy]; try done.
  pose proof (tied x y Hx Hy). lia.
Qed.

Lemma filter_arraySort_tied (l : list A) :
  filter P (arraySort compare l) = filter P l.
Proof.
  induction l as [|x l IH]; [done|].
  cbn [arraySort foldr]. fold (arraySort compare l).
  by rewrite filter_sortInsert_tied, IH, filter_cons.
Qed.
End Stable.

(** X8.  The sort is stable: the records that hold one and the same value
    in the sort column stand in the sorted array in the order in which they
    stand in the data. *)
Theorem sortedData_stable data sortBy sortDirection (v : Value) :
  filter (λ a, getField a sortBy = v) (sortedData data sortBy sortDirection)
  = filter (λ a, getField a sortBy = v) data.
Proof.
  rewrite sortedData_arraySort. apply filter_arraySort_tied.
  intros a b Ha Hb. unfold compareFn. cbn zeta. rewrite Ha, Hb.
  by rewrite lessThan_irrefl.
Qed.

Section SortThenFilter.
Context {A : Type} (compare : A → A → Z) (keep : A → bool).
Context `{!Transitive (notAfter compare)}.

Lemma filter_sortInsert (x : A) (l : list A) :
  StronglySorted (notAfter compare) l →
  List.filter keep (sortInsert compare x l)
  = if keep x then sortInsert compare x (List.filter keep l)
    else List.filter keep l.
Proof.
  induction 1 as [|y l Hl IH Hy]; cbn [sortInsert List.filter].
  { by destruct (keep x). }
  destruct (Z.leb_spec (compare x y) 0) as [Hxy|Hxy].
  - cbn [List.filter]. destruct (keep x) eqn:Hx; [|done].
    symmetry. apply sortInsert_HdRel.
    assert (Forall (notAfter compare x) (y :: l)) as Hall.
    { constructor; [done|]. eapply Forall_impl; [apply Hy|].
      intros z Hz. by etrans. }
    destruct (keep y).
    + by constructor.
    + clear -Hall. apply Forall_cons in Hall as [_ Hall].
      induction Hall as [|z l Hz Hall IH]; cbn [List.filter];
        [constructor|].
      destruct (keep z); [by constructor|done].
  - cbn [List.filter]. rewrite IH.
    destruct (keep x), (keep y); cbn [sortInsert]; try done.
    by rewrite (proj2 (Z.leb_gt _ _) Hxy).
Qed.

Lemma filter_arraySort (l : list A) :
  consistentComparator compare →
  List.filter keep (arraySort compare l)
  = arraySort compare (List.filter keep l).
Proof.
  intros Hc. induction l as [|x l IH]; [done|].
  cbn [arraySort foldr List.filter]. fold (arraySort compare l).
  rewrite filter_sortInsert
    by (apply Sorted_StronglySorted; [done|by apply arraySort_Sorted]).
  rewrite IH. by destruct (keep x).
Qed.
End SortThenFilter.

(** X9.  Sorting and filtering commute: the table shows the same rows,
    in the same order, as if the data had been filtered first and sorted
    afterwards. *)
Theorem filter_sort_commute data sortBy sortDirection debouncedFilter :
  filteredAndSortedData (sortedData data sortBy sortDirection) debouncedFilter
  = sortedData (filteredAndSortedData data debouncedFilter) sortBy
      sortDirection.
Proof.
  rewrite !sortedData_arraySort.
  destruct debouncedFilter as [|c q]; [done|].
  cbn [filteredAndSortedData].
  apply filter_arraySort; [apply _|apply compareFn_consistent].
Qed.

Lemma sortedData_reverse data sortBy sortDirection :
  NoDup ((λ a, getField a sortBy) <$> data) →
  sortedData data sortBy
    (match sortDirection with asc => desc | desc => asc end)
  = reverse (sortedData data sortBy sortDirection).
Proof.
  intros Hnd.
  apply (Sorted_unique
           (keyBefore sortBy
              (match sortDirection with asc => desc | desc => asc end))).
  - apply StronglySorted_Sorted. by apply sortedData_StronglySorted.
  - assert (∀ a b, flip (keyBefore sortBy sortDirection) a b →
              keyBefore sortBy
                (match sortDirection with asc => desc | desc => asc end) a b)
      as Hflip by (by destruct sortDirection).
    apply StronglySorted_Sorted.
    apply (StronglySorted_weaken _ _ _ Hflip).
    apply Sorted_StronglySorted; [by intros a b c ??; etrans|].
    apply Sorted_reverse, StronglySorted_Sorted.
    by apply sortedData_StronglySorted.
  - by rewrite reverse_Permutation, !sortedData_Permutation.
Qed.

(** ** The generated records and the loaded rows *)

Lemma toString_inj (m n : Z) : toString m = toString n → m = n.
Proof.
  unfold toString. intros E. apply DecimalZ.to_int_inj.
  assert (∀ z, NilZero.int_of_string (NilZero.string_of_int (Z.to_int z))
               = Some (Z.to_int z)) as Hisi.
  { intros z. apply NilZero.isi; destruct z; cbn; try done;
      intros [= H]; by apply DecimalPos.Unsigned.to_uint_nonnil in H. }
  apply (f_equal NilZero.int_of_string) in E.
  rewrite !Hisi in E. by injection E.
Qed.

Section GeneratedFacts.
Variable randomValue : Z → Z.
Local Abbreviation fullData := (initialFullData randomValue).
Local Abbreviation invariant := (dataSourceInvariant randomValue).
Local Abbreviation init := (useDataFetching randomValue).
Implicit Types (s : DataSource) (es : list Event).

Lemma generateItem_inj_name (i j : Z) :
  Item.name (generateItem randomValue i) = Item.name (generateItem randomValue j)
  → i = j.
Proof.
  cbn [generateItem Item.name]. intros E. apply toString_inj.
  by simplify_eq/=.
Qed.

Lemma lookup_generateData (count : Z) (k : nat) :
  generateData randomValue count !! k
  = if decide (Z.of_nat k < count)
    then Some (generateItem randomValue (Z.of_nat k + 1)) else None.
Proof.
  unfold generateData. rewrite list_lookup_fmap. case_decide.
  - rewrite lookup_seqZ_lt by done. cbn. do 2 f_equal. lia.
  - by rewrite lookup_seqZ_ge by lia.
Qed.

Lemma id_generateData (count : Z) :
  Item.id <$> generateData randomValue count = seqZ 1 count.
Proof.
  unfold generateData. rewrite <- list_fmap_compose.
  rewrite <- (list_fmap_id (seqZ 1 count)) at 2.
  by apply list_fmap_ext.
Qed.

Lemma take_generateData (n count : Z) :
  0 <= n <= count →
  take (Z.to_nat n) (generateData randomValue count)
  = generateData randomValue n.
Proof.
  intros Hn. apply list_eq. intros k.
  rewrite lookup_take, !lookup_generateData.
  repeat case_decide; try done; lia.
Qed.

Lemma NoDup_id_generateData (count : Z) :
  NoDup (Item.id <$> generateData randomValue count).
Proof. rewrite id_generateData. apply NoDup_seqZ. Qed.

Lemma NoDup_name_generateData (count : Z) :
  NoDup (Item.name <$> generateData randomValue count).
Proof.
  unfold generateData. rewrite <- list_fmap_compose.
  apply NoDup_fmap_2; [|apply NoDup_seqZ].
  intros i j. apply generateItem_inj_name.
Qed.

(** X10.  [generateData(count)] makes [count] records (none when [count]
    is not positive); the record at place [k] has the id [k + 1] and the
    name [Item Name] followed by that id in decimal; ids and names are
    pairwise distinct. *)
Theorem generateData_shape (count : Z) :
  let generated := generateData randomValue count in
  Z.of_nat (length generated) = Z.max 0 count
  ∧ Item.id <$> generated = seqZ 1 count
  ∧ (∀ k item, generated !! k = Some item →
       Item.id item = Z.of_nat k + 1
       ∧ Item.name item = "Item Name " +:+ toString (Z.of_nat k + 1))
  ∧ NoDup (Item.id <$> generated)
  ∧ NoDup (Item.name <$> generated).
Proof.
  intros generated. subst generated. repeat split.
  - rewrite length_generateData. lia.
  - apply id_generateData.
  - rewrite lookup_generateData in H. case_decide; by simplify_eq.
  - rewrite lookup_generateData in H. case_decide; by simplify_eq.
  - apply NoDup_id_generateData.
  - apply NoDup_name_generateData.
Qed.

Lemma data_generateData s :
  invariant s → data s = generateData randomValue (loadedCount s).
Proof.
  intros Hs. rewrite (inv_prefix s Hs).
  with_strategy transparent [initialFullData] unfold initialFullData.
  apply take_generateData. pose proof (inv_range s Hs).
  unfold INITIAL_LOAD_COUNT in *. lia.
Qed.

(** X11.  In every state of the data source the loaded rows are the
    records [1 .. loadedCount] of the generator, in that order; so their
    number is [loadedCount], which lies between 500 and 10000. *)
Theorem loaded_rows es :
  let s := run randomValue init es in
  data s = generateData randomValue (loadedCount s)
  ∧ Item.id <$> data s = seqZ 1 (loadedCount s)
  ∧ Z.of_nat (length (data s)) = loadedCount s
  ∧ INITIAL_LOAD_COUNT <= loadedCount s <= TOTAL_ROWS.
Proof.
  intros s. pose proof (invariant_reachable randomValue es) as Hs.
  fold s in Hs. clearbody s.
  pose proof (inv_range s Hs) as Hr.
  rewrite (data_generateData s Hs). repeat split; try apply Hr.
  - apply id_generateData.
  - rewrite length_generateData. unfold INITIAL_LOAD_COUNT in *. lia.
Qed.

(** X12.  Loaded rows stay: whatever happens next, the rows loaded so far
    remain the first rows of the data, in the same order. *)
Theorem loaded_rows_grow es es' :
  let s := run randomValue init es in
  data s `prefix_of` data (run randomValue s es')
  ∧ loadedCount s <= loadedCount (run randomValue s es').
Proof.
  intros s. pose proof (invariant_reachable randomValue es) as Hs.
  fold s in Hs. clearbody s.
  pose proof (invariant_run randomValue s es' Hs) as Hs'.
  pose proof (loadedCount_run_mono randomValue s es') as Hmono.
  split; [|done].
  rewrite (inv_prefix s Hs), (inv_prefix _ Hs').
  pose proof (inv_range s Hs). unfold INITIAL_LOAD_COUNT in *.
  replace (Z.to_nat (loadedCount s))
    with (Z.to_nat (loadedCount s)
            `min` Z.to_nat (loadedCount (run randomValue s es')))%nat by lia.
  rewrite <- take_take. apply prefix_take.
Qed.



(** X14.  After [n] completed loads the data source holds
    [min(TOTAL_ROWS, INITIAL_LOAD_COUNT + n * CHUNK_SIZE)] rows, is idle
    again, and still expects more exactly when that number is below
    [TOTAL_ROWS]. *)
Theorem completed_loads_progress (n : nat) :
  let s := completedLoads randomValue n init in
  let loaded :=
    Z.min TOTAL_ROWS (INITIAL_LOAD_COUNT + Z.of_nat n * CHUNK_SIZE) in
  loadedCount s = loaded
  ∧ data s = generateData randomValue loaded
  ∧ isLoading s = false
  ∧ hasMore s = (loaded <? TOTAL_ROWS).
Proof.
  intros s loaded.
  destruct (completedLoads_loadedCount randomValue n) as [Hc Hl].
  pose proof (invariant_completedLoads randomValue n init
                (invariant_init randomValue)) as Hs.
  fold s in Hc, Hl, Hs. fold loaded in Hc. clearbody s.
  split; [done|]. split; [|split; [done|]].
  - by rewrite (data_generateData s Hs), Hc.
  - by rewrite (inv_hasMore s Hs), Hc.
Qed.

Lemma StronglySorted_lookup {A} (R : relation A) (l : list A) :
  (∀ (i j : nat) x y, (i < j)%nat → l !! i = Some x → l !! j = Some y → R x y)
  → StronglySorted R l.
Proof.
  induction l as [|a l IH]; intros Hl; constructor.
  - apply IH. intros i j x y Hij Hi Hj. apply (Hl (S i) (S j)); [lia|done..].
  - apply Forall_forall. intros y [j Hj]%list_elem_of_lookup.
    apply (Hl 0%nat (S j)); [lia|done..].
Qed.

Lemma generateData_Sorted_id (count : Z) :
  Sorted (notAfter (compareFn sortBy_id asc)) (generateData randomValue count).
Proof.
  apply StronglySorted_Sorted, StronglySorted_lookup.
  intros i j x y Hij Hi Hj. rewrite lookup_generateData in Hi, Hj.
  repeat case_decide; simplify_eq.
  unfold notAfter, compareFn. cbn.
  by rewrite (proj2 (Z.ltb_lt _ _)) by lia.
Qed.

Lemma NoDup_getField_id (l : list Item.t) :
  NoDup (Item.id <$> l) → NoDup ((λ a, getField a sortBy_id) <$> l).
Proof.
  intros Hl. change (λ a, getField a sortBy_id) with (VNumber ∘ Item.id).
  rewrite list_fmap_compose. apply NoDup_fmap_2; [|done].
  by intros m n [= ->].
Qed.

Lemma NoDup_getField_name (l : list Item.t) :
  NoDup (Item.name <$> l) → NoDup ((λ a, getField a sortBy_name) <$> l).
Proof.
  intros Hl. change (λ a, getField a sortBy_name) with (VString ∘ Item.name).
  rewrite list_fmap_compose. apply NoDup_fmap_2; [|done].
  by intros m n [= ->].
Qed.

(** X15.  The loaded rows come sorted by id: the table's first view
    (column [id], ascending, no filter) shows the rows of the data source as
    they were loaded, in every state of the data source. *)
Theorem sort_by_id_keeps_loaded_order es :
  let s := run randomValue init es in
  sortedData (data s) sortBy_id asc = data s
  ∧ tableView s sortBy_id asc "" = data s.
Proof.
  intros s. pose proof (invariant_reachable randomValue es) as Hs.
  fold s in Hs. clearbody s.
  assert (sortedData (data s) sortBy_id asc = data s) as E.
  { rewrite sortedData_arraySort. apply arraySort_Sorted_id.
    rewrite (data_generateData s Hs). apply generateData_Sorted_id. }
  split; [done|]. unfold tableView. by cbn [filteredAndSortedData].
Qed.

(** X16.  Ids and names of the loaded rows are pairwise distinct, so for
    the columns [id] and [name] the descending table is the ascending
    table read backwards, in every state of the data source. *)
Theorem loaded_rows_reverse es sortBy :
  sortBy ≠ sortBy_numericValue →
  let s := run randomValue init es in
  NoDup ((λ a, getField a sortBy) <$> data s)
  ∧ sortedData (data s) sortBy desc = rev (sortedData (data s) sortBy asc).
Proof.
  intros Hcol s. pose proof (invariant_reachable randomValue es) as Hs.
  fold s in Hs. clearbody s.
  assert (NoDup ((λ a, getField a sortBy) <$> data s)) as Hnd.
  { rewrite (data_generateData s Hs). destruct sortBy; [| |done].
    - apply NoDup_getField_id, NoDup_id_generateData.
    - apply NoDup_getField_name, NoDup_name_generateData. }
  split; [done|].
  rewrite rev_alt. fold (reverse (sortedData (data s) sortBy asc)).
  by apply (sortedData_reverse (data s) sortBy asc).
Qed.
End GeneratedFacts.

(** ** The filter *)

Lemma List_filter_idempotent {A} (keep : A → bool) (l : list A) :
  List.filter keep (List.filter keep l) = List.filter keep l.
Proof.
  induction l as [|x l IH]; [done|]. cbn [List.filter].
  destruct (keep x) eqn:E; [|done]. cbn [List.filter]. by rewrite E, IH.
Qed.

Lemma List_filter_sublist {A} (keep : A → bool) (l : list A) :
  List.filter keep l `sublist_of` l.
Proof.
  induction l as [|x l IH]; [done|]. cbn [List.filter].
  destruct (keep x); by constructor.
Qed.

(** X17.  Filtering keeps rows in their order and drops nothing twice:
    the filtered array is a sub-array of its input, filtering it again with
    the same query changes nothing, and the empty query keeps every row. *)
Theorem filter_idempotent (l : list Item.t) (debouncedFilter : string) :
  filteredAndSortedData (filteredAndSortedData l debouncedFilter)
    debouncedFilter
  = filteredAndSortedData l debouncedFilter
  ∧ filteredAndSortedData l debouncedFilter `sublist_of` l
  ∧ filteredAndSortedData l "" = l.
Proof.
  split; [|split; [|done]].
  - destruct debouncedFilter; [done|]. cbn [filteredAndSortedData].
    apply List_filter_idempotent.
  - destruct debouncedFilter; [done|]. cbn [filteredAndSortedData].
    apply List_filter_sublist.
Qed.

Lemma toLowerCaseChar_idempotent (c : ascii) :
  toLowerCaseChar (toLowerCaseChar c) = toLowerCaseChar c.
Proof. by destruct c as [[] [] [] [] [] [] [] []]. Qed.

Lemma toLowerCase_idempotent (s : string) :
  toLowerCase (toLowerCase s) = toLowerCase s.
Proof.
  induction s as [|c s IH]; [done|]. cbn [toLowerCase].
  by rewrite toLowerCaseChar_idempotent, IH.
Qed.

(** X18.  The filter does not see the case of the query: a query and its
    lower-case form select the same rows. *)
Theorem filter_query_case (l : list Item.t) (debouncedFilter : string) :
  filteredAndSortedData l (toLowerCase debouncedFilter)
  = filteredAndSortedData l debouncedFilter.
Proof.
  destruct debouncedFilter as [|c q]; [done|].
  trans (List.filter
           (matchesFilter (toLowerCase (toLowerCase (String c q)))) l);
    [done|].
  by rewrite toLowerCase_idempotent.
Qed.

Lemma String_prefix_refl (s : string) : String.prefix s s = true.
Proof.
  induction s as [|c s IH]; [done|]. cbn.
  by destruct (ascii_dec c c).
Qed.

Lemma includes_refl (s : string) : includes s s = true.
Proof.
  destruct s as [|c s]; [done|]. cbn [includes]. by rewrite String_prefix_refl.
Qed.

(** X19.  Typing the id of a row into the filter finds that row: a
    record of the array is kept by the query that is its id in decimal. *)
Theorem filter_finds_id (l : list Item.t) (item : Item.t) :
  item ∈ l → item ∈ filteredAndSortedData l (toString (Item.id item)).
Proof.
  intros Hin.
  destruct (toString (Item.id item)) as [|c q] eqn:E; [done|].
  cbn [filteredAndSortedData]. rewrite <- E.
  rewrite (toLowerCase_beforeLetters _ (allChars_toString _)).
  apply list_elem_of_In, filter_In. split; [by apply list_elem_of_In|].
  unfold matchesFilter. by rewrite includes_refl.
Qed.

(** ** The sort state *)

Lemma SortKey_eqb_eq (a b : SortKey) : SortKey_eqb a b = true ↔ a = b.
Proof. by destruct a, b. Qed.

(** X20.  A click on a column header makes that column the sort column
    and scrolls a mounted list to the top.  A click on another column sorts
    ascending; a click on the sort column turns the direction round, so two
    clicks on it give back the sort column and the direction. *)
Theorem handleSort_clicks (column : SortKey) (s : SortState) :
  st_sortBy (handleSort column s) = column
  ∧ (st_sortBy s ≠ column → st_sortDirection (handleSort column s) = asc)
  ∧ (st_sortBy s = column →
       st_sortDirection (handleSort column s) ≠ st_sortDirection s
       ∧ st_sortBy (handleSort column (handleSort column s)) = st_sortBy s
       ∧ st_sortDirection (handleSort column (handleSort column s))
         = st_sortDirection s)
  ∧ st_listScrollTop (handleSort column s)
    = (λ _, 0%Q) <$> st_listScrollTop s.
Proof.
  unfold handleSort.
  destruct (SortKey_eqb (st_sortBy s) column) eqn:E.
  - apply SortKey_eqb_eq in E. cbn. rewrite (proj2 (SortKey_eqb_eq _ _) E).
    repeat split; try done;
      destruct (st_sortDirection s), (st_listScrollTop s); done.
  - assert (st_sortBy s ≠ column) as Hne
      by (intros H%SortKey_eqb_eq; congruence).
    cbn. repeat split; try done; by destruct (st_listScrollTop s).
Qed.

(** X21.  When the values of the sort column are pairwise distinct, a
    click on the header of the sort column shows the rows in the reverse of
    the order they had. *)
Theorem handleSort_reverses data (s : SortState) :
  NoDup ((λ a, getField a (st_sortBy s)) <$> data) →
  let s' := handleSort (st_sortBy s) s in
  sortedData data (st_sortBy s') (st_sortDirection s')
  = rev (sortedData data (st_sortBy s) (st_sortDirection s)).
Proof.
  intros Hnd s'. subst s'. unfold handleSort.
  rewrite (proj2 (SortKey_eqb_eq _ _) eq_refl).
  cbn [st_sortBy st_sortDirection].
  rewrite rev_alt.
  fold (reverse (sortedData data (st_sortBy s) (st_sortDirection s))).
  by apply sortedData_reverse.
Qed.

(** ** The debounce hook *)

Lemma render_debouncedValue value delay (s : Debounce) :
  debouncedValue (useDebounce_render value delay s) = debouncedValue s.
Proof. unfold useDebounce_render. by destruct (_ && _). Qed.

(** X22.  Renders alone never change the debounced value: as long as no
    timeout fires, whatever is typed, the hook returns the value it returned
    before. *)
Theorem debounce_holds_value (s : Debounce) (es : list DebounceEvent) :
  forallb isRender es = true →
  debouncedValue (debounceRun s es) = debouncedValue s.
Proof.
  revert s. induction es as [|e es IH]; intros s; [done|].
  cbn [forallb debounceRun foldl]. intros [He Hes]%andb_true_iff.
  destruct e as [value delay|]; [|done]. cbn [debounceStep].
  fold (debounceRun (useDebounce_render value delay s) es).
  by rewrite IH, render_debouncedValue.
Qed.

Lemma debounceInvariant_step (s : Debounce) (e : DebounceEvent) :
  debounceInvariant s → debounceInvariant (debounceStep s e).
Proof.
  unfold debounceInvariant. destruct e as [value delay|]; cbn [debounceStep].
  - unfold useDebounce_render.
    destruct (String.eqb value (db_value s) && (delay =? db_delay s));
      [done|]. intros _. by cbn.
  - unfold useDebounce_timeout.
    destruct (handler s) eqn:Hh; cbn; rewrite ?Hh; [|done].
    by intros ->.
Qed.

Lemma debounceInvariant_run (s : Debounce) (es : list DebounceEvent) :
  debounceInvariant s → debounceInvariant (debounceRun s es).
Proof.
  revert s. induction es as [|e es IH]; intros s Hs; [done|].
  cbn [debounceRun foldl]. by apply IH, debounceInvariant_step.
Qed.

Lemma render_db_value value delay (s : Debounce) :
  db_value (useDebounce_render value delay s) = value.
Proof.
  unfold useDebounce_render.
  destruct (String.eqb_spec value (db_value s)) as [->|]; cbn [andb]; [|done].
  by destruct (delay =? db_delay s).
Qed.

(** X23.  When the timeout fires, the debounced value becomes the value
    of the latest render, whatever was rendered before, and nothing is left
    pending: a second firing changes nothing. *)
Theorem debounce_commits_latest (value0 value : string) (delay0 delay : Z)
    (es : list DebounceEvent) :
  let s := debounceRun (useDebounce value0 delay0)
             (es ++ [Render value delay]) in
  let s' := useDebounce_timeout s in
  debouncedValue s' = value
  ∧ handler s' = None
  ∧ useDebounce_timeout s' = s'.
Proof.
  intros s s'.
  assert (debounceInvariant s) as Hinv by (by apply debounceInvariant_run).
  assert (db_value s = value) as Hv.
  { subst s. unfold debounceRun. rewrite foldl_app. cbn [foldl debounceStep].
    apply render_db_value. }
  clearbody s. subst s'. unfold useDebounce_timeout, debounceInvariant in *.
  destruct (handler s) as [v|] eqn:Hh; cbn; [|rewrite Hh]; by simplify_eq.
Qed.

(** ** Scrolling *)

Section ScrollFacts.
Variable randomValue : Z → Z.
Local Abbreviation init := (useDataFetching randomValue).


End ScrollFacts.

(** ** The rendered rows *)



Lemma lookup_renderedRows_DataRow (visible : list Item.t) (first : Z)
    (loading : bool) (filteredLength count : Z) (k : nat) key item index :
  renderedRows visible first loading filteredLength count !! k
  = Some (DataRow key item index) →
  visible !! k = Some item
  ∧ key = Item.id item ∧ index = first + Z.of_nat k.
Proof.
  unfold renderedRows. intros Hk.
  assert (imap (λ index item,
                  DataRow (Item.id item) item (first + Z.of_nat index))
               visible !! k = Some (DataRow key item index)) as Hk'.
  { destruct (_ && _); [|done].
    apply lookup_app_Some in Hk as [Hk|[_ Hk]]; [done|].
    apply list_lookup_fmap_Some in Hk as (? & ? & ?). done. }
  rewrite list_lookup_imap in Hk'.
  destruct (visible !! k) as [item'|]; by simplify_eq/=.
Qed.

Section RenderedFacts.
Variable randomValue : Z → Z.
Local Abbreviation init := (useDataFetching randomValue).


(** X27.  The footer [End of list] is rendered exactly in the states of
    the data source in which all [TOTAL_ROWS] rows are loaded. *)
Theorem end_of_list_footer (es : list Event) :
  let s := run randomValue init es in
  showEndOfList s = true ↔ loadedCount s = TOTAL_ROWS.
Proof.
  intros s. pose proof (invariant_reachable randomValue es) as Hs.
  fold s in Hs. clearbody s.
  pose proof (inv_range s Hs) as Hr.
  unfold showEndOfList. rewrite (inv_hasMore s Hs), (inv_prefix s Hs).
  rewrite length_take.
  pose proof (length_initialFullData randomValue) as Hfull.
  rewrite andb_true_iff, negb_true_iff, Z.ltb_ge, Z.ltb_lt.
  unfold INITIAL_LOAD_COUNT, TOTAL_ROWS in *. lia.
Qed.

(** X28.  Every data row that the table renders shows a row of the
    current view at its own place: the index handed to the row is
    [startIndex] plus its place in the window, the view holds the row's item
    at that index, and the React key is the item's id. *)
Theorem tableRows_index (s : DataSource) sortBy sortDirection
    (debouncedFilter : string) (scrollOffset : Q) (k : nat) key item index :
  (0 <= scrollOffset)%Q →
  tableRows s sortBy sortDirection debouncedFilter scrollOffset !! k
  = Some (DataRow key item index) →
  let view := tableView s sortBy sortDirection debouncedFilter in
  index = startIndex RowHeight defaultOverscanCount scrollOffset + Z.of_nat k
  ∧ 0 <= index < Z.of_nat (length view)
  ∧ view !! Z.to_nat index = Some item
  ∧ key = Item.id item.
Proof.
  intros Hs Hk view. unfold tableRows in Hk. fold view in Hk.
  apply lookup_renderedRows_DataRow in Hk as (Hvis & -> & ->).
  cbn [useVirtualizedList vl_visibleItems vl_startIndex] in *.
  rewrite lookup_visibleItems in Hvis by done.
  case_decide as Hlt; [|done].
  pose proof (startIndex_nonneg RowHeight defaultOverscanCount scrollOffset).
  pose proof (endIndex_le_count view LIST_HEIGHT RowHeight
                defaultOverscanCount scrollOffset).
  repeat split; try lia.
  rewrite <- Hvis. f_equal. lia.
Qed.
End RenderedFacts.

(** ** Instances *)

Lemma visibleItems_contents_witness :
  let first := startIndex 60 5 400 in
  let last := endIndex [10; 20; 30] 700 60 5 400 in
  let visible := visibleItems [10; 20; 30] 700 60 5 400 in
  Z.of_nat (length visible) = Z.max 0 (last - first)
  ∧ ∀ k : nat,
      visible !! k
      = if decide (first + Z.of_nat k < last)
        then [10; 20; 30] !! (Z.to_nat first + k)%nat else None.
Proof.
  apply (visibleItems_contents [10; 20; 30] 700 60 5 400);
    [reflexivity | reflexivity | lia | vm_compute; discriminate].
Defined.

Lemma window_past_the_end_witness :
  visibleItems [10; 20; 30] 700 60 5 600 = [].
Proof.
  apply (window_past_the_end [10; 20; 30] 700 60 5 600);
    [reflexivity | reflexivity | lia | vm_compute; discriminate].
Defined.

Lemma window_monotone_witness :
  startIndex 60 5 0 <= startIndex 60 5 400
  ∧ endIndex [10; 20; 30] 700 60 5 0 <= endIndex [10; 20; 30] 700 60 5 400.
Proof.
  apply (window_monotone [10; 20; 30] 700 60 5 0 400);
    [reflexivity | vm_compute; discriminate].
Defined.



Lemma loaded_rows_reverse_witness :
  let s := run (λ _, 0) (useDataFetching (λ _, 0)) [] in
  NoDup ((λ a, getField a sortBy_name) <$> data s)
  ∧ sortedData (data s) sortBy_name desc
    = rev (sortedData (data s) sortBy_name asc).
Proof.
  apply (loaded_rows_reverse (λ _, 0) [] sortBy_name). discriminate.
Defined.

Lemma filter_finds_id_witness :
  Item.mk 7 "Item Name 7" 0 "Completed"
  ∈ filteredAndSortedData
      [Item.mk 6 "Item Name 6" 0 "Pending";
       Item.mk 7 "Item Name 7" 0 "Completed"]
      (toString 7).
Proof.
  apply (filter_finds_id
           [Item.mk 6 "Item Name 6" 0 "Pending";
            Item.mk 7 "Item Name 7" 0 "Completed"]
           (Item.mk 7 "Item Name 7" 0 "Completed")).
  apply list_elem_of_further, list_elem_of_here.
Defined.

Lemma handleSort_reverses_witness :
  let data := [Item.mk 1 "b" 20 "Completed"; Item.mk 2 "c" 10 "Completed";
               Item.mk 3 "a" 30 "Pending"] in
  let s := mkSortState sortBy_numericValue desc None in
  let s' := handleSort (st_sortBy s) s in
  sortedData data (st_sortBy s') (st_sortDirection s')
  = rev (sortedData data (st_sortBy s) (st_sortDirection s)).
Proof.
  apply (handleSort_reverses
           [Item.mk 1 "b" 20 "Completed"; Item.mk 2 "c" 10 "Completed";
            Item.mk 3 "a" 30 "Pending"]
           (mkSortState sortBy_numericValue desc None)).
  refine (bool_decide_unpack _ _). vm_compute. exact I.
Defined.

Lemma debounce_holds_value_witness :
  debouncedValue
    (debounceRun (useDebounce "" 300) [Render "a" 300; Render "ac" 300])
  = debouncedValue (useDebounce "" 300).
Proof.
  apply (debounce_holds_value (useDebounce "" 300)
           [Render "a" 300; Render "ac" 300]).
  reflexivity.
Defined.


Lemma tableRows_index_witness :
  let s := mkDataSource
             [Item.mk 1 "Item Name 1" 9 "Completed";
              Item.mk 2 "Item Name 2" 4 "Completed"] false false 2 0 in
  let view := tableView s sortBy_numericValue asc "" in
  1 = startIndex RowHeight defaultOverscanCount 0 + Z.of_nat 1
  ∧ 0 <= 1 < Z.of_nat (length view)
  ∧ view !! Z.to_nat 1 = Some (Item.mk 1 "Item Name 1" 9 "Completed")
  ∧ 1 = Item.id (Item.mk 1 "Item Name 1" 9 "Completed").
Proof.
  apply (tableRows_index
           (mkDataSource
              [Item.mk 1 "Item Name 1" 9 "Completed";
               Item.mk 2 "Item Name 2" 4 "Completed"] false false 2 0)
           sortBy_numericValue asc "" 0 1 1
           (Item.mk 1 "Item Name 1" 9 "Completed") 1);
    [vm_compute; discriminate | vm_compute; reflexivity].
Defined.

(** * The callbacks of one render *)

Lemma fetchMoreData_closureOf (s : DataSource) :
  fetchMoreData (closureOf s) s = fetchMoreData_call s.
Proof. reflexivity. Qed.

Lemma checkLoadMore_of_closureOf (target : ScrollTarget) (s : DataSource) :
  checkLoadMore_of (closureOf s) target s = checkLoadMore target s.
Proof. reflexivity. Qed.

Lemma fetchMoreData_guarded (c : Closure) (s : DataSource) :
  c_isLoading c = true ∨ c_hasMore c = false → fetchMoreData c s = s.
Proof.
  intros [H|H]; unfold fetchMoreData; rewrite H; [done|].
  by rewrite orb_true_r.
Qed.

Lemma fetchMoreData_passes (c : Closure) (s : DataSource) :
  c_isLoading c = false → c_hasMore c = true →
  fetchMoreData c s
  = {| data := data s; isLoading := true; hasMore := hasMore s;
       loadedCount := loadedCount s; suspended := S (suspended s) |}.
Proof. intros Hl Hm. unfold fetchMoreData. by rewrite Hl, Hm. Qed.

Section ComponentFacts.
Variable randomValue : Z → Z.
Local Abbreviation fullData := (initialFullData randomValue).
Local Abbreviation mounted := (mount randomValue).
Implicit Types (s : DataSource) (c : Closure) (h : Component).
Implicit Types (es : list ComponentEvent).

Ltac source_fields :=
  cbn [data isLoading hasMore loadedCount suspended source closure offset].

Lemma rowsInvariant_init : rowsInvariant randomValue (useDataFetching randomValue).
Proof.
  unfold useDataFetching. split; source_fields;
    [done | by exists 1 | by apply slice_prefix | done].
Qed.

Lemma rowsInvariant_fetchMoreData c s :
  rowsInvariant randomValue s → rowsInvariant randomValue (fetchMoreData c s).
Proof.
  intros [Hr Hk Hp Hh]. unfold fetchMoreData.
  destruct (_ || _); by split.
Qed.

Lemma rowsInvariant_checkLoadMore_of c target s :
  rowsInvariant randomValue s →
  rowsInvariant randomValue (checkLoadMore_of c target s).
Proof.
  intros Hs. unfold checkLoadMore_of.
  destruct (_ && _); [by apply rowsInvariant_fetchMoreData|done].
Qed.

(** a resumed call moves [loadedCount] on by one chunk, up to the total *)
Lemma resume_loadedCount s :
  rowsInvariant randomValue s →
  loadedCount (fetchMoreData_resume randomValue s)
  = Z.min TOTAL_ROWS (loadedCount s + CHUNK_SIZE).
Proof.
  intros [Hr [k Hk] _ _]. unfold fetchMoreData_resume.
  rewrite length_nextData by (unfold INITIAL_LOAD_COUNT in *; lia).
  destruct (Z.ltb_spec 0 (Z.min CHUNK_SIZE (TOTAL_ROWS - loadedCount s)));
    source_fields; unfold CHUNK_SIZE, TOTAL_ROWS in *; lia.
Qed.

Lemma rowsInvariant_resume s :
  rowsInvariant randomValue s →
  rowsInvariant randomValue (fetchMoreData_resume randomValue s).
Proof.
  intros Hs. pose proof (resume_loadedCount s Hs) as Hlc.
  destruct Hs as [Hr [k Hk] Hp Hh].
  assert (0 <= loadedCount s <= TOTAL_ROWS) as Hr'
    by (unfold INITIAL_LOAD_COUNT in *; lia).
  split.
  - rewrite Hlc. unfold CHUNK_SIZE, INITIAL_LOAD_COUNT in *. lia.
  - rewrite Hlc. unfold CHUNK_SIZE, TOTAL_ROWS in *.
    destruct (Z.le_gt_cases (loadedCount s + 500) 10000).
    + exists (k + 1). lia.
    + exists 20. lia.
  - unfold fetchMoreData_resume. rewrite length_nextData by done.
    destruct (Z.ltb_spec 0 (Z.min CHUNK_SIZE (TOTAL_ROWS - loadedCount s)));
      source_fields; [|done].
    rewrite Hp, nextData_remaining by done. rewrite take_take_drop.
    f_equal. lia.
  - unfold fetchMoreData_resume. rewrite length_nextData by done.
    destruct (Z.ltb_spec 0 (Z.min CHUNK_SIZE (TOTAL_ROWS - loadedCount s)));
      source_fields; [done|].
    symmetry. apply Z.ltb_ge. unfold CHUNK_SIZE in *. lia.
Qed.

Lemma rowsInvariant_step h e :
  rowsInvariant randomValue (source h) →
  rowsInvariant randomValue (source (componentStep randomValue h e)).
Proof.
  intros Hs. destruct e; cbn [componentStep source]; try done.
  - by apply rowsInvariant_fetchMoreData.
  - by apply rowsInvariant_checkLoadMore_of.
  - cbn [step]. destruct (suspended (source h)); [done|].
    by apply rowsInvariant_resume.
Qed.

Lemma rowsInvariant_run h es :
  rowsInvariant randomValue (source h) →
  rowsInvariant randomValue (source (componentRun randomValue h es)).
Proof.
  revert h. induction es as [|e es IH]; intros h Hs; [done|].
  cbn [componentRun foldl]. by apply IH, rowsInvariant_step.
Qed.

Lemma rowsInvariant_data s :
  rowsInvariant randomValue s →
  data s = generateData randomValue (loadedCount s).
Proof.
  intros Hs. rewrite (rows_prefix s Hs).
  with_strategy transparent [initialFullData] unfold initialFullData.
  apply take_generateData. pose proof (rows_range s Hs).
  unfold INITIAL_LOAD_COUNT in *. lia.
Qed.

Lemma requests_of_one_render s (scrollOffset : Q) :
  rowsInvariant randomValue s →
  isLoading s = false → hasMore s = true → suspended s = 0%nat →
  let h := {| source := s; closure := closureOf s; offset := scrollOffset |} in
  let next := Z.min TOTAL_ROWS (loadedCount s + CHUNK_SIZE) in
  loadedCount (source (componentRun randomValue h [Request; Timer])) = next
  ∧ loadedCount
      (source (componentRun randomValue h
                 [Request; Rerender; Request; Timer; Timer])) = next
  ∧ (let pending := source (componentRun randomValue h [Request; Request]) in
     isLoading pending = true ∧ suspended pending = 2%nat)
  ∧ loadedCount
      (source (componentRun randomValue h [Request; Request; Timer; Timer]))
    = Z.min TOTAL_ROWS (next + CHUNK_SIZE).
Proof.
  intros H0 Hl Hm Hs h next. subst h. unfold componentRun.
  cbn [foldl componentStep source closure offset step].
  assert (c_isLoading (closureOf s) = false) as Cl by done.
  assert (c_hasMore (closureOf s) = true) as Cm by done.
  rewrite !(fetchMoreData_passes (closureOf s)) by done.
  source_fields. rewrite Hs.
  set (s1 := {| data := data s; isLoading := true; hasMore := hasMore s;
                loadedCount := loadedCount s; suspended := 1 |}).
  assert (rowsInvariant randomValue s1) as H1 by (by destruct H0).
  assert (fetchMoreData (closureOf s1) s1 = s1) as ->
    by (by apply fetchMoreData_guarded; left).
  set (s2 := {| data := data s; isLoading := true; hasMore := hasMore s;
                loadedCount := loadedCount s; suspended := 2 |}).
  assert (rowsInvariant randomValue s2) as H2 by (by destruct H0).
  pose proof (resume_loadedCount s1 H1) as L1.
  pose proof (resume_loadedCount s2 H2) as L2.
  pose proof (rowsInvariant_resume s2 H2) as H3.
  pose proof (resume_loadedCount _ H3) as L3.
  pose proof (resume_idle randomValue s1) as [_ S1].
  pose proof (resume_idle randomValue s2) as [_ S2].
  change (suspended s1) with 1%nat in *.
  change (suspended s2) with 2%nat in *.
  change (loadedCount s1) with (loadedCount s) in *.
  change (loadedCount s2) with (loadedCount s) in *.
  cbn [pred] in *. cbv iota. rewrite S1, S2.
  split; [done|]. split; [done|]. split; [done|].
  by rewrite L3, L2.
Qed.

(** C8.  The code breaks the claim.  A request made by the callback of a
    render that saw [isLoading] set or [hasMore] cleared changes nothing,
    and two requests with a render between them append one chunk.  But the
    guard of [fetchMoreData] reads the constants of its render, not the
    state: two requests made by the callbacks of one render both pass it,
    two calls are suspended, and when both timers have fired two chunks
    are appended (1500 rows where the claim has 1000). *)
Theorem duplicate_requests_of_one_render :
  let once := componentRun randomValue mounted [Request; Timer] in
  let fresh :=
    componentRun randomValue mounted
      [Request; Rerender; Request; Timer; Timer] in
  let pending := componentRun randomValue mounted [Request; Request] in
  let stale :=
    componentRun randomValue mounted [Request; Request; Timer; Timer] in
  (∀ c s, c_isLoading c = true ∨ c_hasMore c = false → fetchMoreData c s = s)
  ∧ loadedCount (source once) = 1000
  ∧ loadedCount (source fresh) = 1000
  ∧ (isLoading (source pending) = true ∧ suspended (source pending) = 2%nat)
  ∧ loadedCount (source stale) = 1500
  ∧ data (source stale) = generateData randomValue 1500.
Proof.
  intros once fresh pending stale.
  split; [apply fetchMoreData_guarded|].
  destruct (requests_of_one_render (useDataFetching randomValue) 0
              rowsInvariant_init eq_refl eq_refl eq_refl)
    as (Honce & Hfresh & Hpending & Hstale).
  change (loadedCount (source once) = 1000) in Honce.
  change (loadedCount (source fresh) = 1000) in Hfresh.
  change (isLoading (source pending) = true
          ∧ suspended (source pending) = 2%nat) in Hpending.
  change (loadedCount (source stale) = 1500) in Hstale.
  assert (rowsInvariant randomValue (source stale)) as Hinv
    by (apply rowsInvariant_run, rowsInvariant_init).
  clearbody once fresh pending stale.
  split; [done|]. split; [done|]. split; [done|]. split; [done|].
  by rewrite (rowsInvariant_data _ Hinv), Hstale.
Qed.

(** X13.  Whichever calls pass the guard, also several calls made by the
    callbacks of one render: in every state of the mounted component the
    loaded rows are the records [1 .. loadedCount] of the generator without
    gap or repetition, [loadedCount] is a multiple of [CHUNK_SIZE] between
    500 and 10000, and [hasMore] is [loadedCount < TOTAL_ROWS]. *)
Theorem rows_whichever_calls_pass es :
  let s := source (componentRun randomValue mounted es) in
  data s = generateData randomValue (loadedCount s)
  ∧ Item.id <$> data s = seqZ 1 (loadedCount s)
  ∧ (CHUNK_SIZE | loadedCount s)
  ∧ INITIAL_LOAD_COUNT <= loadedCount s <= TOTAL_ROWS
  ∧ hasMore s = (loadedCount s <? TOTAL_ROWS).
Proof.
  intros s.
  assert (rowsInvariant randomValue s) as Hs
    by (apply rowsInvariant_run, rowsInvariant_init).
  clearbody s. pose proof (rowsInvariant_data s Hs) as Hd.
  split; [done|]. split; [rewrite Hd; apply id_generateData|].
  split; [apply (rows_chunked s Hs)|]. split; [apply (rows_range s Hs)|].
  apply (rows_hasMore s Hs).
Qed.

(** X25.  A scroll event at the end of the content, handled by a render
    that has seen an idle state with rows left, starts a load.  Once the
    component has rendered again, the scroll events that follow leave the
    data source as it is: they start no second load. *)
Theorem scroll_to_bottom_loads_once (s : DataSource) (scrollOffset : Q)
    (target : ScrollTarget) (targets : list ScrollTarget) :
  isLoading s = false → hasMore s = true →
  (scrollHeight target <= scrollTop target + clientHeight target)%Q →
  let h := {| source := s; closure := closureOf s; offset := scrollOffset |} in
  let h' := componentRun randomValue h [Scroll target; Rerender] in
  isLoading (source h') = true
  ∧ suspended (source h') = S (suspended s)
  ∧ data (source h') = data s
  ∧ source (componentRun randomValue h' (Scroll <$> targets)) = source h'.
Proof.
  intros Hl Hm Hbottom h h'.
  assert (Qle_bool (scrollHeight target - LIST_HEIGHT * 2)
            (scrollTop target + clientHeight target) = true) as Hnear.
  { apply Qle_bool_iff. unfold LIST_HEIGHT. lra. }
  assert (source h'
          = {| data := data s; isLoading := true; hasMore := hasMore s;
               loadedCount := loadedCount s; suspended := S (suspended s) |}
          ∧ closure h' = closureOf (source h')) as [Es Ec].
  { subst h' h. unfold componentRun.
    cbn [foldl componentStep source closure offset].
    unfold checkLoadMore_of, fetchMoreData.
    cbn [closureOf c_isLoading c_hasMore].
    rewrite Hl, Hm, Hnear. by cbn [andb orb negb]. }
  clearbody h'. split; [by rewrite Es|]. split; [by rewrite Es|].
  split; [by rewrite Es|].
  assert (c_isLoading (closure h') = true) as Hc by (by rewrite Ec, Es).
  clear Es Ec. revert h' Hc.
  induction targets as [|t targets IH]; intros h' Hc; [done|].
  cbn [fmap list_fmap componentRun foldl].
  fold (componentRun randomValue
          (componentStep randomValue h' (Scroll t)) (Scroll <$> targets)).
  rewrite IH by done.
  cbn [componentStep source]. unfold checkLoadMore_of.
  by rewrite Hc, andb_false_r.
Qed.
End ComponentFacts.

Lemma scroll_to_bottom_loads_once_witness :
  let s := useDataFetching (λ _, 0) in
  let target := mkScrollTarget 29300 700 30000 in
  let h := {| source := s; closure := closureOf s; offset := 0 |} in
  let h' := componentRun (λ _, 0) h [Scroll target; Rerender] in
  isLoading (source h') = true
  ∧ suspended (source h') = S (suspended s)
  ∧ data (source h') = data s
  ∧ source (componentRun (λ _, 0) h' (Scroll <$> [target; target]))
    = source h'.
Proof.
  apply (scroll_to_bottom_loads_once (λ _, 0) (useDataFetching (λ _, 0)) 0
           (mkScrollTarget 29300 700 30000)
           [mkScrollTarget 29300 700 30000; mkScrollTarget 29300 700 30000]);
    [reflexivity | reflexivity | vm_compute; discriminate].
Defined.

(** * The windowing hook in double precision *)

Lemma safeInteger_Some (n : Z) :
  Z.abs n <= MAX_SAFE_INTEGER → safeInteger n = Some n.
Proof. intros Hn. unfold safeInteger. by rewrite (proj2 (Z.leb_le _ _) Hn). Qed.


Lemma Math_floor_Some (x : PrimFloat.float) (q : Q) (F : Z) :
  numberValue x = Some q → isFloor q F → Z.abs F <= MAX_SAFE_INTEGER →
  Math_floor x = Some F.
Proof.
  intros Hx HF Hsafe. unfold Math_floor. rewrite Hx. cbn [mbind option_bind].
  rewrite (isFloor_Qfloor q F HF). by apply safeInteger_Some.
Qed.

Lemma Math_ceil_Some (x : PrimFloat.float) (q : Q) (C : Z) :
  numberValue x = Some q → isCeiling q C → Z.abs C <= MAX_SAFE_INTEGER →
  Math_ceil x = Some C.
Proof.
  intros Hx HC Hsafe. unfold Math_ceil. rewrite Hx. cbn [mbind option_bind].
  rewrite (isCeiling_Qceiling q C HC). by apply safeInteger_Some.
Qed.



Section DoubleWindow.
Context {A : Type}.
Variables (items : list A) (listHeight rowHeight : PrimFloat.float).
Variable overscanCount : Z.
Variable scrollOffset : PrimFloat.float.

Lemma double_startIndex_Some (x : Q) (F : Z) :
  numberValue (PrimFloat.div scrollOffset rowHeight) = Some x →
  isFloor x F →
  Z.abs F <= MAX_SAFE_INTEGER →
  Z.abs overscanCount <= MAX_SAFE_INTEGER →
  Z.abs (F - overscanCount) <= MAX_SAFE_INTEGER →
  Double.startIndex rowHeight overscanCount scrollOffset
  = Some (Z.max 0 (F - overscanCount)).
Proof.
  intros Hx HF H1 H2 H3. unfold Double.startIndex.
  rewrite (Math_floor_Some _ x F Hx HF H1). cbn [mbind option_bind].
  rewrite (safeInteger_Some _ H2). cbn [mbind option_bind].
  by rewrite (safeInteger_Some _ H3).
Qed.

Lemma double_endIndex_Some (y : Q) (C : Z) :
  numberValue (PrimFloat.div (PrimFloat.add scrollOffset listHeight) rowHeight)
  = Some y →
  isCeiling y C →
  Z.abs C <= MAX_SAFE_INTEGER →
  Z.abs overscanCount <= MAX_SAFE_INTEGER →
  Z.abs (C + overscanCount) <= MAX_SAFE_INTEGER →
  Double.endIndex items listHeight rowHeight overscanCount scrollOffset
  = Some (Z.min (Z.of_nat (length items)) (C + overscanCount)).
Proof.
  intros Hy HC H1 H2 H3. unfold Double.endIndex.
  rewrite (Math_ceil_Some _ y C Hy HC H1). cbn [mbind option_bind].
  rewrite (safeInteger_Some _ H2). cbn [mbind option_bind].
  by rewrite (safeInteger_Some _ H3).
Qed.


End DoubleWindow.

(** Where rounding leaves the floor of the first quotient and the ceiling
    of the second as they are for the exact quotients, the hook on doubles
    computes the window of the hook in exact arithmetic. *)
Lemma double_window_exact {A} (items : list A)
    (listHeight rowHeight : PrimFloat.float) (overscanCount : Z)
    (scrollOffset : PrimFloat.float) (s v r x y : Q) :
  numberValue (PrimFloat.div scrollOffset rowHeight) = Some x →
  numberValue (PrimFloat.div (PrimFloat.add scrollOffset listHeight) rowHeight)
  = Some y →
  Qfloor x = Qfloor (s / r) →
  Qceiling y = Qceiling ((s + v) / r) →
  Z.abs overscanCount <= MAX_SAFE_INTEGER →
  Z.abs (Qfloor x) <= MAX_SAFE_INTEGER →
  Z.abs (Qfloor x - overscanCount) <= MAX_SAFE_INTEGER →
  Z.abs (Qceiling y) <= MAX_SAFE_INTEGER →
  Z.abs (Qceiling y + overscanCount) <= MAX_SAFE_INTEGER →
  Double.startIndex rowHeight overscanCount scrollOffset
  = Some (startIndex r overscanCount s)
  ∧ Double.endIndex items listHeight rowHeight overscanCount scrollOffset
    = Some (endIndex items v r overscanCount s)
  ∧ Double.visibleItems items listHeight rowHeight overscanCount scrollOffset
    = Some (visibleItems items v r overscanCount s).
Proof.
  intros Hx Hy HF HC Ho HF1 HF2 HC1 HC2.
  pose proof (double_startIndex_Some rowHeight overscanCount scrollOffset
                x (Qfloor x) Hx (Qfloor_isFloor x) HF1 Ho HF2) as Hfirst.
  pose proof (double_endIndex_Some items listHeight rowHeight overscanCount
                scrollOffset y (Qceiling y) Hy (Qceiling_isCeiling y)
                HC1 Ho HC2) as Hlast.
  unfold Double.visibleItems, visibleItems, startIndex, endIndex.
  rewrite Hfirst, Hlast, HF, HC. done.
Qed.

(** The rounded quotient is not the exact one: with rows of height 0.1 and
    the scroll offset 1 the exact quotient of the two doubles lies below 10
    and its floor is 9, the hook divides to 10 and starts at row 10. *)
Example startIndex_rounded_quotient :
  Double.startIndex (decimal 1 10) 0 (toNumber 1) = Some 10
  ∧ (numberValue (toNumber 1) ≫= λ s,
     numberValue (decimal 1 10) ≫= λ r,
     Some (Qfloor (s / r))) = Some 9.
Proof. split; by vm_compute. Qed.

(** C2.  The windowing hook returns exactly these values, in the arithmetic
    of doubles in which it computes: the start index is the floor of the
    rounded quotient [scrollOffset / rowHeight] less the overscan, cut off at
    0; the end index is the ceiling of the rounded quotient
    [(scrollOffset + listHeight) / rowHeight] plus the overscan, cut off at
    the number of items; the visible items are the slice between the two; the
    total content height is the product of the number of items and the row
    height; and the translation is the product of the start index and the row
    height.  Floor and ceiling are the integers [F] and [C] with
    [F <= x < F + 1] and [C - 1 < y <= C] around the two rounded quotients [x]
    and [y], which are finite, and the indices are safe integers. *)
Theorem double_window_formulas {A} (items : list A)
    (listHeight rowHeight : PrimFloat.float) (overscanCount : Z)
    (scrollOffset : PrimFloat.float) (x y : Q) (F C : Z) :
  numberValue (PrimFloat.div scrollOffset rowHeight) = Some x →
  numberValue (PrimFloat.div (PrimFloat.add scrollOffset listHeight) rowHeight)
  = Some y →
  isFloor x F →
  isCeiling y C →
  Z.abs overscanCount <= MAX_SAFE_INTEGER →
  Z.abs F <= MAX_SAFE_INTEGER →
  Z.abs (F - overscanCount) <= MAX_SAFE_INTEGER →
  Z.abs C <= MAX_SAFE_INTEGER →
  Z.abs (C + overscanCount) <= MAX_SAFE_INTEGER →
  let itemCount := Z.of_nat (length items) in
  let first := Z.max 0 (F - overscanCount) in
  let last := Z.min itemCount (C + overscanCount) in
  Double.startIndex rowHeight overscanCount scrollOffset = Some first
  ∧ Double.endIndex items listHeight rowHeight overscanCount scrollOffset
    = Some last
  ∧ Double.useVirtualizedList items listHeight rowHeight overscanCount
      scrollOffset
    = Some {| Double.vl_visibleItems := slice items first last;
              Double.vl_startIndex := first;
              Double.vl_contentHeight :=
                PrimFloat.mul (toNumber itemCount) rowHeight;
              Double.vl_translateY := PrimFloat.mul (toNumber first) rowHeight;
              Double.vl_totalHeight :=
                PrimFloat.mul (toNumber itemCount) rowHeight |}.
Proof.
  intros Hx Hy HF HC Ho HF1 HF2 HC1 HC2 itemCount first last.
  pose proof (double_startIndex_Some rowHeight overscanCount scrollOffset
                x F Hx HF HF1 Ho HF2) as Hfirst.
  pose proof (double_endIndex_Some items listHeight rowHeight overscanCount
                scrollOffset y C Hy HC HC1 Ho HC2) as Hlast.
  split; [done|]. split; [done|].
  unfold Double.useVirtualizedList, Double.visibleItems,
    Double.listTranslateY, Double.totalHeight.
  rewrite Hfirst, Hlast. reflexivity.
Qed.




Lemma double_window_formulas_witness :
  let items := replicate 100 () in
  Double.useVirtualizedList items (toNumber 700) (toNumber 60) 5
    (toNumber 1000)
  = Some {| Double.vl_visibleItems := slice items 11 34;
            Double.vl_startIndex := 11;
            Double.vl_contentHeight := toNumber 6000;
            Double.vl_translateY := toNumber 660;
            Double.vl_totalHeight := toNumber 6000 |}.
Proof.
  intros items.
  refine (_ (double_window_formulas items (toNumber 700) (toNumber 60) 5
               (toNumber 1000) _ _ 16 29 _ _ _ _ _ _ _ _ _)).
  - intros (_ & _ & H). exact H.
  - vm_compute. reflexivity.
  - vm_compute. reflexivity.
  - split; by vm_compute.
  - split; by vm_compute.
  - by vm_compute.
  - by vm_compute.
  - by vm_compute.
  - by vm_compute.
  - by vm_compute.
Defined.

